(** * TinyAda: the Scanner and the recursive-descent Parser

    A shallow embedding of [Scanner.py] and [Parser.py].  The two classes
    share one [Chario] object (the character cursor and the diagnostic
    sink); the Parser owns one token of lookahead.  Python's [RuntimeError]
    is the only exception either class raises, so an outcome is a normal
    return, a raised [RuntimeError] carrying its message, or the exhaustion
    of the step budget that bounds the [while] loops and the recursion. *)

From Stdlib Require Import String Ascii List Bool Arith Lia.
Import ListNotations.
Open Scope list_scope.
Open Scope string_scope.

Set Implicit Arguments.

(** ** Outcomes of a call *)

Inductive outcome (S A : Type) : Type :=
| Ret (a : A) (s : S)          (* normal return, with the state reached *)
| Raise (e : string) (s : S)   (* RuntimeError(e), with the state reached *)
| Timeout (s : S).             (* the step budget ran out in state s *)

Arguments Ret {S A} a s.
Arguments Raise {S A} e s.
Arguments Timeout {S A} s.

Definition is_ret {S A} (o : outcome S A) : bool :=
  match o with Ret _ _ => true | _ => false end.
Definition is_raise {S A} (o : outcome S A) : bool :=
  match o with Raise _ _ => true | _ => false end.
Definition is_timeout {S A} (o : outcome S A) : bool :=
  match o with Timeout _ => true | _ => false end.
Definition final {S A} (o : outcome S A) : S :=
  match o with Ret _ s | Raise _ s | Timeout s => s end.

(** ** Python helpers *)

(** [x in (a, b, ...)] on a tuple of strings. *)
Definition str_in (x : string) (t : list string) : bool :=
  existsb (String.eqb x) t.

(** The newline and carriage-return, tab and backslash characters. *)
Definition LF : string := String (ascii_of_nat 10) "".
Definition CR : string := String (ascii_of_nat 13) "".
Definition TAB : string := String (ascii_of_nat 9) "".
Definition BACKSLASH : string := String (ascii_of_nat 92) "".

(** [str.isalpha] and [str.isdigit] of one character, for code points
    below 256 (Python classifies by Unicode category: besides the ASCII
    letters, the Latin-1 letters are alphabetic, and the superscripts
    one, two and three are digits). *)
Definition char_isalpha (c : ascii) : bool :=
  let n := nat_of_ascii c in
  (((65 <=? n) && (n <=? 90)) || ((97 <=? n) && (n <=? 122))
   || (n =? 170) || (n =? 181) || (n =? 186)
   || ((192 <=? n) && (n <=? 214)) || ((216 <=? n) && (n <=? 246))
   || ((248 <=? n) && (n <=? 255)))%nat.

Definition char_isdigit (c : ascii) : bool :=
  let n := nat_of_ascii c in
  (((48 <=? n) && (n <=? 57)) || (n =? 178) || (n =? 179) || (n =? 185))%nat.

Fixpoint str_all (p : ascii -> bool) (s : string) : bool :=
  match s with
  | EmptyString => true
  | String c r => p c && str_all p r
  end.

(** A Python string is alphabetic (a digit string) when it is not empty
    and every character is. *)
Definition isalpha (s : string) : bool :=
  match s with EmptyString => false | _ => str_all char_isalpha s end.
Definition isdigit (s : string) : bool :=
  match s with EmptyString => false | _ => str_all char_isdigit s end.

(** ** Tokens *)

(** Modelled from the spec: the [Token] class is not among the sources.
    A token is an immutable value of a category ([code], a string: the
    Scanner builds [Token("id", text)], [Token("int", digits)],
    [Token(word, None)] and [Token(symbol, None)]) and an optional
    lexeme ([value]). *)
Record Token : Type := mkToken { code : string; value : option string }.

Module Tok.
(** Modelled from the spec: the category constants of the missing
    [Token] class.  Each one is the code the Scanner gives the token:
    a reserved word or a symbol is its own spelling. *)
Definition ID := "id".
Definition numericalLiteral := "int".
Definition stringLiteral := "string".
Definition EOF := "EOF".
Definition NEWLINE := LF.
Definition IS := "is".
Definition LOOP := "loop".
Definition SEMICOLON := ";".
Definition BEGIN := "begin".
Definition END := "end".
Definition TYPE := "type".
Definition PROC := "procedure".
Definition COLON := ":".
Definition CONSTANT := "constant".
Definition COLON_EQ := ":=".
Definition COMMA := ",".
Definition PARENTHESIS_OPEN := "(".
Definition PARENTHESIS_CLOSE := ")".
Definition ARRAY := "array".
Definition RANGE := "range".
Definition DOT_DOT := "..".
Definition OF := "of".
Definition IN := "in".
Definition OUT := "out".
Definition ELSIF := "elsif".
Definition ELSE := "else".
Definition IF := "if".
Definition WHILE := "while".
Definition NULL := "null".
Definition EXIT := "exit".
Definition WHEN := "when".
Definition THEN := "then".
Definition AND := "and".
Definition OR := "or".
Definition NOT := "not".
Definition SQUARE := "**".
(** Modelled from the spec: the membership sets "used purely for
    set-membership dispatch". *)
Definition basicDeclarationHandles := [ID; TYPE; PROC].
Definition relationalOperator := ["="; "/="; "<"; "<="; ">"; ">="].
Definition addingOperator := ["+"; "-"].
Definition multiplyingOperator := ["*"; "/"; "mod"].
End Tok.

(** Modelled from the spec: [consts.py] is not among the sources.  The
    reserved words the spec lists, split over the four tables whose
    concatenation the Scanner consults. *)
Definition reserved : list string :=
  ["is"; "begin"; "end"; "range"; "array"; "of"; "constant"; "in"; "out";
   "when"; "then"; "else"; "elsif"].
Definition basicDeclarationHandles : list string := ["type"; "procedure"].
Definition statementHandles : list string :=
  ["exit"; "if"; "loop"; "null"; "while"].
Definition stringOperator : list string := ["and"; "or"; "not"; "mod"].

(** ** The character source *)

(** Modelled from the spec: the [Chario] class is not among the sources.
    A cursor over the input text with a non-consuming [PeekNextChar]
    (the text ["EOF"] at the end of the input), [GetNextChar] (returns
    the next character and moves past it) and [PrintErrorMessage] (writes
    a diagnostic to the sink and leaves the cursor alone). *)
Record Chario : Type := mkChario {
  source : list ascii;   (* the characters not yet consumed *)
  errors : list string   (* the diagnostics written so far, oldest first *)
}.

Definition PeekNextChar (c : Chario) : string :=
  match source c with
  | [] => "EOF"
  | ch :: _ => String ch ""
  end.

(** Consuming past the end of the input is undefined by the interface;
    the Scanner never does it (every [GetNextChar] follows a peek that
    saw a character).  Here it returns ["EOF"] and stays put. *)
Definition GetNextChar (c : Chario) : string * Chario :=
  match source c with
  | [] => ("EOF", c)
  | ch :: rest => (String ch "", mkChario rest (errors c))
  end.

Definition PrintErrorMessage (msg : string) (c : Chario) : Chario :=
  mkChario (source c) (errors c ++ [msg])%list.

(** ** Scanner *)

Module Scanner.

Section WithTables.

(** The union of the reserved-word tables, [pd.concat((...)).values]. *)
Variable reservedWords : list string.

(** [IntegerToken]: a loop iteration consumes one character, so the
    number of characters left bounds the iterations; with that many
    allowed, the budget is only exhausted at the end of the input, where
    the peek is ["EOF"] and the loop stops by itself. *)
Fixpoint IntegerToken_loop (n : nat) (c : Chario) (result : string)
  : string * Chario :=
  match n with
  | 0 => (result, c)
  | S n' =>
      if isdigit (PeekNextChar c)
      then let (ch, c') := GetNextChar c in
           IntegerToken_loop n' c' (result ++ ch)
      else (result, c)
  end.

Definition IntegerToken (c : Chario) : outcome Chario Token :=
  let (result, c') := IntegerToken_loop (length (source c)) c "" in
  Ret (mkToken "int" (Some result)) c'.

Definition delimiters : list string :=
  [" "; LF; CR; TAB; BACKSLASH; ","; ":"; "<"; ">"; "="; ";"; "+"; "-";
   "*"; "/"; "("; ")"; "EOF"].

Fixpoint AlphabeticToken_loop (n : nat) (c : Chario) (result : string)
  : string * Chario :=
  match n with
  | 0 => (result, c)
  | S n' =>
      if negb (str_in (PeekNextChar c) delimiters)
      then let (ch, c') := GetNextChar c in
           AlphabeticToken_loop n' c' (result ++ ch)
      else (result, c)
  end.

Definition AlphabeticToken (c : Chario) : outcome Chario Token :=
  let (result, c') := AlphabeticToken_loop (length (source c)) c "" in
  if str_in result reservedWords
  then Ret (mkToken result None) c'
  else Ret (mkToken "id" (Some result)) c'.

Definition singleCharOperators : list string :=
  ["+"; "-"; ";"; "("; ")"; ","].
Definition possiblyDoubleCharOperators : list string :=
  ["/"; ":"; ">"; "<"; "*"].
Definition doubleCharOperators : list string :=
  ["/="; ":="; "<="; ">="; "**"].

Definition OperatorToken (c : Chario) : outcome Chario Token :=
  let (firstChar, c1) := GetNextChar c in
  if (firstChar =? ".") && (PeekNextChar c1 =? ".") then
    let (_, c2) := GetNextChar c1 in
    Ret (mkToken ".." None) c2
  else if str_in firstChar singleCharOperators then
    Ret (mkToken firstChar None) c1
  else if str_in firstChar possiblyDoubleCharOperators then
    let candidate := firstChar ++ PeekNextChar c1 in
    if str_in candidate doubleCharOperators then
      let (ch, c2) := GetNextChar c1 in
      Ret (mkToken (firstChar ++ ch) None) c2
    else
      Ret (mkToken firstChar None) c1
  else
    Raise "Unexpected symbol"
          (PrintErrorMessage ("Unexpected symbol '" ++ firstChar ++ "'") c1).

Definition ignoredCharacters : list string := [" "; LF; CR; TAB; BACKSLASH].

(** The first loop of [GetNextToken]: [Some c'] when the loop breaks at
    a character that is not ignored, [None] when it meets the end of the
    input and the function returns the EOF token from inside the loop.
    Bounded like the loops above. *)
Fixpoint skip_ignored (n : nat) (c : Chario) : Chario * bool :=
  let nextChar := PeekNextChar c in
  if nextChar =? "EOF" then (c, true)
  else if str_in nextChar ignoredCharacters then
    match n with
    | 0 => (c, false)
    | S n' => skip_ignored n' (snd (GetNextChar c))
    end
  else (c, false).

Definition GetNextToken (c : Chario) : outcome Chario Token :=
  let (c', at_eof) := skip_ignored (length (source c)) c in
  if at_eof then Ret (mkToken "EOF" None) c'
  else
    let nextChar := PeekNextChar c' in
    if isalpha nextChar then AlphabeticToken c'
    else if isdigit nextChar then IntegerToken c'
    else OperatorToken c'.

End WithTables.

End Scanner.

(** No character of [w] is a delimiter. *)
Definition no_delimiter (w : string) : bool :=
  str_all (fun ch => negb (str_in (String ch "") Scanner.delimiters)) w.


(** The character is one [GetNextToken] skips. *)
Definition ignorable (ch : ascii) : bool :=
  str_in (String ch "") Scanner.ignoredCharacters.

(** What follows a digit string: a character that is not a digit, or
    the end of the input. *)
Definition digit_terminated (tail : list ascii) : bool :=
  match tail with
  | [] => true
  | d :: _ => negb (char_isdigit d)
  end.

(** The two characters [ch nxt] are one of the five double-character
    operators. *)
Definition makes_double (ch nxt : ascii) : bool :=
  (Ascii.eqb nxt "="%char && str_in (String ch "") ["/"; ":"; "<"; ">"])
  || (Ascii.eqb ch "*"%char && Ascii.eqb nxt "*"%char).

(** The codes of the tokens [OperatorToken] can build. *)
Definition operator_codes : list string :=
  [".."; "+"; "-"; ";"; "("; ")"; ","; "/"; ":"; ">"; "<"; "*";
   "/="; ":="; "<="; ">="; "**"].

(** The token [t] is what the Scanner makes of the text [w], with the
    reserved words [rw]: the EOF token of the empty text; a reserved word
    or an identifier of a letter-led text without delimiters; an integer
    literal of a digit string; an operator of its spelling. *)
Definition token_of_text (rw : list string) (w : string) (t : Token) : Prop :=
  (w = "" /\ t = mkToken "EOF" None)
  \/ (exists a w', w = String a w' /\ char_isalpha a = true
                   /\ no_delimiter w = true
                   /\ t = if str_in w rw then mkToken w None
                          else mkToken "id" (Some w))
  \/ (w <> "" /\ str_all char_isdigit w = true
      /\ t = mkToken "int" (Some w))
  \/ (In w operator_codes /\ t = mkToken w None).

(** The Scanner over the tables of [consts.py]. *)
Definition reservedWords : list string :=
  (reserved ++ basicDeclarationHandles ++ statementHandles ++ stringOperator)%list.

Definition chario_of (text : string) : Chario :=
  mkChario (list_ascii_of_string text) [].

(** ** Calls that thread a state and may raise *)

Definition M (S A : Type) : Type := S -> outcome S A.

Definition ret {S A} (a : A) : M S A := fun s => Ret a s.
Definition raise {S A} (e : string) : M S A := fun s => Raise e s.
Definition timeout {S A} : M S A := fun s => Timeout s.

Definition bind {S A B} (m : M S A) (k : A -> M S B) : M S B :=
  fun s =>
    match m s with
    | Ret a s' => k a s'
    | Raise e s' => Raise e s'
    | Timeout s' => Timeout s'
    end.

Notation "x <- m ;; k" := (bind m (fun x => k))
  (at level 61, m at next level, right associativity).
Notation "m ;; k" := (bind m (fun _ => k))
  (at level 61, right associativity).

(** [try: m except RuntimeError: h].  Running out of budget is not an
    exception and is never caught. *)
Definition try_ {S} (m : M S unit) (h : M S unit) : M S unit :=
  fun s =>
    match m s with
    | Ret a s' => Ret a s'
    | Raise _ s' => h s'
    | Timeout s' => Timeout s'
    end.

Definition ifM {S A} (c : S -> bool) (a b : M S A) : M S A :=
  fun s => if c s then a s else b s.

Definition when_ {S} (c : S -> bool) (a : M S unit) : M S unit :=
  ifM c a (ret tt).

(** [while c: body], at most [fuel] iterations. *)
Fixpoint while_ {S} (fuel : nat) (c : S -> bool) (body : M S unit)
  : M S unit :=
  fun s =>
    if c s then
      match fuel with
      | 0 => Timeout s
      | S fuel' => (body ;; while_ fuel' c body) s
      end
    else Ret tt s.

(** Calls that let no exception out. *)
Definition never_raises {S A} (m : M S A) : Prop :=
  forall s, is_raise (m s) = false.

(** Calls that leave an observation [f] of the state as it was, however
    they end. *)
Definition keeps {S X A} (f : S -> X) (m : M S A) : Prop :=
  forall s, f (final (m s)) = f s.

(** Calls whose final state is related to the state they start from:
    by [Rn] when they return or raise, by [Rt] when the budget runs
    out. *)
Definition respects {S A} (Rn Rt : S -> S -> Prop) (m : M S A) : Prop :=
  forall s,
    match m s with
    | Ret _ q => Rn s q
    | Raise _ q => Rn s q
    | Timeout q => Rt s q
    end.

(** ** Parser *)

(** Modelled from the spec: [Token.__eq__] is not among the sources.  A
    token is a value of two fields, not a category, so Python's [==]
    between a [Token] object and a category string is [False]. *)
Definition Token_eq_str (t : Token) (s : string) : bool := false.

(** [tok in (a, b, ...)] where [tok] is a [Token] object and the
    collection holds category strings. *)
Definition Token_in (t : Token) (l : list string) : bool :=
  existsb (Token_eq_str t) l.

Module Parser.

Section WithScanner.

(** The constructor's arguments: a scanner and a chario, which share the
    state [W] (the character cursor and the sink); and [str(token)] of
    the missing [Token] class. *)
Variable W : Type.
Variable scanner_GetNextToken : W -> outcome W Token.
Variable chario_PrintErrorMessage : string -> W -> W.
Variable Token_str : Token -> string.

(** The Parser object, with the standard output [print] writes to. *)
Record Parser : Type := mkParser {
  chario : W;
  token : Token;
  stdout : list string
}.

Definition P := M Parser.

(** [self.token = self.scanner.GetNextToken()]: when the scanner raises,
    the assignment does not happen. *)
Definition advance : P unit :=
  fun p =>
    match scanner_GetNextToken (chario p) with
    | Ret t w => Ret tt (mkParser w t (stdout p))
    | Raise e w => Raise e (mkParser w (token p) (stdout p))
    | Timeout w => Timeout (mkParser w (token p) (stdout p))
    end.

Definition print (line : string) : P unit :=
  fun p => Ret tt (mkParser (chario p) (token p) (stdout p ++ [line])%list).

Definition PrintErrorMessage (msg : string) : P unit :=
  fun p => Ret tt (mkParser (chario_PrintErrorMessage msg (chario p))
                            (token p) (stdout p)).

Definition tok_is (c : string) : Parser -> bool :=
  fun p => code (token p) =? c.
Definition tok_in (l : list string) : Parser -> bool :=
  fun p => str_in (code (token p)) l.

Definition ignore_newlines (fuel : nat) : P unit :=
  while_ fuel (tok_is Tok.NEWLINE) advance.

Fixpoint discard_loop (fuel : nat) (message : string) : P string :=
  fun p =>
    if negb (code (token p) =? Tok.NEWLINE) then
      match fuel with
      | 0 => Timeout p
      | S fuel' =>
          (let message := message ++ Token_str (token p) ++ " " in
           advance ;;
           discard_loop fuel' message) p
      end
    else Ret message p.

Definition discard_tokens (fuel : nat) : P unit :=
  fun p =>
    (let message := "trailing tokens: " ++ Token_str (token p) ++ " " in
     advance ;;
     message <- discard_loop fuel message ;;
     let message := message ++ "were discarded" in
     ignore_newlines fuel ;;
     print message) p.

Definition fatalError (fuel : nat) (error_message : string) : P unit :=
  PrintErrorMessage error_message ;;
  discard_tokens fuel ;;
  raise ("Fatal error: " ++ error_message).

Definition line_terminating_tokens : list string :=
  [Tok.IS; Tok.LOOP; Tok.SEMICOLON].

Definition accept (fuel : nat) (expected : string) (error_message : string)
  : P unit :=
  fun p =>
    (let error_message :=
       "expected [" ++ expected ++ "] but " ++ Token_str (token p)
       ++ " was detected" in
     when_ (fun p => (code (token p) =? Tok.NEWLINE)
                     && str_in expected line_terminating_tokens)
           (fatalError fuel error_message) ;;
     ignore_newlines fuel ;;
     when_ (fun p => negb (code (token p) =? expected))
           (fatalError fuel error_message) ;;
     advance ;;
     when_ (fun _ => str_in expected line_terminating_tokens)
           (ignore_newlines fuel)) p.

(** The diagnostic [accept] reports, whatever message it was given. *)
Definition diagnostic (expected : string) (lookahead : Token) : string :=
  "expected [" ++ expected ++ "] but " ++ Token_str lookahead
  ++ " was detected".

(** *** Expressions *)

Fixpoint expression (fuel : nat) : P unit :=
  match fuel with
  | 0 => timeout
  | S f =>
      relation f ;;
      ifM (tok_is Tok.AND)
          (while_ f (tok_is Tok.AND) (advance ;; relation f))
          (when_ (tok_is Tok.OR)
             (while_ f (tok_is Tok.OR) (advance ;; relation f)))
  end

with relation (fuel : nat) : P unit :=
  match fuel with
  | 0 => timeout
  | S f =>
      simpleExpression f ;;
      when_ (tok_in Tok.relationalOperator)
            (advance ;; simpleExpression f)
  end

with simpleExpression (fuel : nat) : P unit :=
  match fuel with
  | 0 => timeout
  | S f =>
      when_ (tok_in Tok.addingOperator) advance ;;
      term f ;;
      while_ f (tok_in Tok.addingOperator) (advance ;; term f)
  end

with term (fuel : nat) : P unit :=
  match fuel with
  | 0 => timeout
  | S f =>
      factor f ;;
      (* the test is on [self.token], not on [self.token.code] *)
      while_ f (fun p => Token_in (token p) Tok.multiplyingOperator)
             (advance ;; factor f)
  end

with factor (fuel : nat) : P unit :=
  match fuel with
  | 0 => timeout
  | S f =>
      ifM (tok_is Tok.NOT)
          (advance ;; primary f)
          (primary f ;;
           when_ (tok_is Tok.SQUARE) (advance ;; primary f))
  end

with primary (fuel : nat) : P unit :=
  match fuel with
  | 0 => timeout
  | S f =>
      ifM (tok_in [Tok.numericalLiteral; Tok.stringLiteral])
          advance
      (ifM (tok_is Tok.ID)
          (name f)
      (ifM (tok_is Tok.PARENTHESIS_OPEN)
          (advance ;;
           expression f ;;
           accept f Tok.PARENTHESIS_CLOSE "')' expected")
          (fun p =>
             fatalError f
               ("expected either a numeric literal, an identifier, or an opening parenthesis but "
                ++ Token_str (token p) ++ " was detected") p)))
  end

with name (fuel : nat) : P unit :=
  match fuel with
  | 0 => timeout
  | S f =>
      accept f Tok.ID "identifier expected" ;;
      when_ (tok_is Tok.PARENTHESIS_OPEN) (indexedComponent f)
  end

with indexedComponent (fuel : nat) : P unit :=
  match fuel with
  | 0 => timeout
  | S f =>
      accept f Tok.PARENTHESIS_OPEN "'(' expected" ;;
      expression f ;;
      while_ f (tok_is Tok.COMMA) (advance ;; expression f) ;;
      accept f Tok.PARENTHESIS_CLOSE "')' expected"
  end.

Definition condition (fuel : nat) : P unit := expression fuel.

(** *** Declarations and type definitions *)

Definition identifierList (fuel : nat) : P unit :=
  accept fuel Tok.ID "identifier expected" ;;
  while_ fuel (tok_is Tok.COMMA)
         (advance ;; accept fuel Tok.ID "identifier expected").

Definition range (fuel : nat) : P unit :=
  accept fuel Tok.RANGE "'is' expected" ;;
  simpleExpression fuel ;;
  accept fuel Tok.DOT_DOT "'..' expected" ;;
  simpleExpression fuel.

Definition index (fuel : nat) : P unit :=
  ifM (tok_is Tok.RANGE)
      (range fuel)
  (ifM (tok_is Tok.ID)
      (name fuel)
      (fatalError fuel "error in indexing")).

Definition enumerationTypeDefinition (fuel : nat) : P unit :=
  accept fuel Tok.PARENTHESIS_OPEN "'(' expected" ;;
  identifierList fuel ;;
  accept fuel Tok.PARENTHESIS_CLOSE "')' expected".

Definition arrayTypeDefinition (fuel : nat) : P unit :=
  accept fuel Tok.ARRAY "'array' expected" ;;
  accept fuel Tok.PARENTHESIS_OPEN "'(' expected" ;;
  index fuel ;;
  while_ fuel (tok_is Tok.COMMA) (advance ;; index fuel) ;;
  accept fuel Tok.PARENTHESIS_CLOSE "')' expected" ;;
  accept fuel Tok.OF "'of' expected" ;;
  name fuel.

Definition typeDefinition (fuel : nat) : P unit :=
  ifM (tok_is Tok.PARENTHESIS_OPEN)
      (enumerationTypeDefinition fuel)
  (ifM (tok_is Tok.ARRAY)
      (arrayTypeDefinition fuel)
  (ifM (tok_is Tok.RANGE)
      (range fuel)
  (ifM (tok_is Tok.ID)
      (name fuel)
      (fun p =>
         fatalError fuel
           ("expected either an opening parenthesis, an array,"
            ++ " a range, or an identifier but "
            ++ Token_str (token p) ++ " was detected") p)))).

Definition objectDeclaration (fuel : nat) : P unit :=
  typeDefinition fuel ;;
  accept fuel Tok.SEMICOLON "';' expected".

Definition numberDeclaration (fuel : nat) : P unit :=
  accept fuel Tok.CONSTANT "'constant' expected" ;;
  accept fuel Tok.COLON_EQ "':=' expected" ;;
  expression fuel ;;
  accept fuel Tok.SEMICOLON "';' expected".

Definition numberOrObjectDeclaration (fuel : nat) : P unit :=
  identifierList fuel ;;
  accept fuel Tok.COLON "':' expected" ;;
  ifM (tok_is Tok.CONSTANT)
      (numberDeclaration fuel)
      (objectDeclaration fuel).

Definition typeDeclaration (fuel : nat) : P unit :=
  accept fuel Tok.TYPE "'type' expected" ;;
  accept fuel Tok.ID "identifier expected" ;;
  accept fuel Tok.IS "'is' expected" ;;
  typeDefinition fuel ;;
  accept fuel Tok.SEMICOLON "';' expected".

Definition mode : P unit :=
  when_ (tok_is Tok.IN) advance ;;
  when_ (tok_is Tok.OUT) advance.

Definition parameterSpecification (fuel : nat) : P unit :=
  identifierList fuel ;;
  accept fuel Tok.COLON "':' expected" ;;
  mode ;;
  name fuel.

Definition formalPart (fuel : nat) : P unit :=
  accept fuel Tok.PARENTHESIS_OPEN "'(' expected" ;;
  parameterSpecification fuel ;;
  while_ fuel (tok_is Tok.SEMICOLON)
         (advance ;; parameterSpecification fuel) ;;
  accept fuel Tok.PARENTHESIS_CLOSE "')' expected".

Definition subprogramSpecification (fuel : nat) : P unit :=
  accept fuel Tok.PROC "procedure expected" ;;
  accept fuel Tok.ID "identifier expected" ;;
  when_ (tok_is "(") (formalPart fuel).

(** *** Statements *)

Definition nullStatement (fuel : nat) : P unit :=
  accept fuel Tok.NULL "null expected" ;;
  accept fuel Tok.SEMICOLON "semicolon expected".

Definition assignmentStatement (fuel : nat) : P unit :=
  accept fuel Tok.COLON_EQ ":= expected" ;;
  expression fuel ;;
  accept fuel Tok.SEMICOLON "semicolon expected".

Definition actualParameterPart (fuel : nat) : P unit :=
  accept fuel Tok.PARENTHESIS_OPEN "open parenthesis expected" ;;
  expression fuel ;;
  while_ fuel (tok_is Tok.COMMA) (advance ;; expression fuel) ;;
  accept fuel Tok.PARENTHESIS_CLOSE "close parenthesis expected".

Definition procedureCallStatement (fuel : nat) : P unit :=
  when_ (tok_is Tok.PARENTHESIS_OPEN) (actualParameterPart fuel) ;;
  accept fuel Tok.SEMICOLON "semicolon expected".

Definition exitStatement (fuel : nat) : P unit :=
  accept fuel Tok.EXIT "exit expected" ;;
  when_ (tok_is Tok.WHEN) (advance ;; condition fuel) ;;
  accept fuel Tok.SEMICOLON "semicolon expected".

Definition iterationScheme (fuel : nat) : P unit :=
  accept fuel Tok.WHILE "while expected" ;;
  condition fuel.

Definition nameStatement (fuel : nat) : P unit :=
  name fuel ;;
  ifM (tok_is Tok.COLON_EQ)
      (assignmentStatement fuel)
      (procedureCallStatement fuel).

Definition simpleStatement (fuel : nat) : P unit :=
  ifM (tok_is Tok.NULL)
      (nullStatement fuel)
  (ifM (tok_is Tok.EXIT)
      (exitStatement fuel)
      (nameStatement fuel)).

Fixpoint sequenceOfStatements (fuel : nat) : P unit :=
  match fuel with
  | 0 => timeout
  | S f =>
      statement f ;;
      while_ f (fun p => negb (tok_in [Tok.END; Tok.ELSIF; Tok.ELSE] p))
             (statement f)
  end

with statement (fuel : nat) : P unit :=
  match fuel with
  | 0 => timeout
  | S f =>
      try_ (ifM (tok_in [Tok.IF; Tok.WHILE; Tok.LOOP])
                (compoundStatement f)
                (simpleStatement f))
           (print ("continue parsing next statement" ++ LF))
  end

with compoundStatement (fuel : nat) : P unit :=
  match fuel with
  | 0 => timeout
  | S f =>
      ifM (tok_is Tok.IF) (ifStatement f) (loopStatement f)
  end

with ifStatement (fuel : nat) : P unit :=
  match fuel with
  | 0 => timeout
  | S f =>
      accept f Tok.IF "if expected" ;;
      condition f ;;
      accept f Tok.THEN "then expected" ;;
      sequenceOfStatements f ;;
      while_ f (tok_is Tok.ELSIF)
             (advance ;;
              condition f ;;
              accept f Tok.THEN "then expected" ;;
              sequenceOfStatements f) ;;
      when_ (tok_is Tok.ELSE) (advance ;; sequenceOfStatements f) ;;
      accept f Tok.END "end expected" ;;
      accept f Tok.IF "if expected" ;;
      accept f Tok.SEMICOLON "semicolon expected"
  end

with loopStatement (fuel : nat) : P unit :=
  match fuel with
  | 0 => timeout
  | S f =>
      try_ (when_ (tok_is Tok.WHILE) (iterationScheme f) ;;
            accept f Tok.LOOP "loop expected")
           (print ("continue parsing from sequence of statements of loop statement"
                   ++ LF)) ;;
      sequenceOfStatements f ;;
      try_ (accept f Tok.END "end expected" ;;
            accept f Tok.LOOP "loop expected" ;;
            accept f Tok.SEMICOLON "semicolon expected")
           (print ("stop parsing loop statement" ++ LF))
  end.

(** *** Subprogram bodies *)

Fixpoint subprogramBody (fuel : nat) : P unit :=
  match fuel with
  | 0 => timeout
  | S f =>
      try_ (subprogramSpecification f ;;
            accept f Tok.IS "'is' expected")
           (print ("continue parsing from declarative part of subprogram body"
                   ++ LF)) ;;
      try_ (declarativePart f)
           (print ("continue parsing from [begin] of subprogram body" ++ LF)) ;;
      try_ (accept f Tok.BEGIN "'begin' expected")
           (print ("continue parsing from sequence of statement of subprogram body"
                   ++ LF)) ;;
      try_ (sequenceOfStatements f)
           (print ("continue parsing from [end] of subprogram body" ++ LF)) ;;
      try_ (accept f Tok.END "'end' expected" ;;
            when_ (tok_is Tok.ID) advance ;;
            accept f Tok.SEMICOLON "semicolon expected")
           (print ("stop parsing subprogram body" ++ LF))
  end

with declarativePart (fuel : nat) : P unit :=
  match fuel with
  | 0 => timeout
  | S f =>
      while_ f (tok_in Tok.basicDeclarationHandles)
             (try_ (basicDeclaration f)
                   (print ("continue parsing basic declaration of declarative part"
                           ++ LF)))
  end

with basicDeclaration (fuel : nat) : P unit :=
  match fuel with
  | 0 => timeout
  | S f =>
      ifM (tok_is Tok.ID)
          (numberOrObjectDeclaration f)
      (ifM (tok_is Tok.TYPE)
          (typeDeclaration f)
      (when_ (tok_is Tok.PROC)
          (subprogramBody f)))
  end.

Definition parse (fuel : nat) : P unit := subprogramBody fuel.

(** [Parser(chario, scanner)]: the constructor reads the first token. *)
Definition init (w : W) : outcome W Parser :=
  match scanner_GetNextToken w with
  | Ret t w' => Ret (mkParser w' t []) w'
  | Raise e w' => Raise e w'
  | Timeout w' => Timeout w'
  end.

(** One recognition session: construct the Parser, then [parse()].  The
    session aborts when an exception leaves the constructor or
    [parse()]. *)
Inductive session : Type :=
| Aborted (e : string) (w : W) (out : list string)
| Completed (p : Parser)
| Unfinished (w : W) (out : list string).

Definition run (fuel : nat) (w : W) : session :=
  match init w with
  | Ret p _ =>
      match parse fuel p with
      | Ret _ p' => Completed p'
      | Raise e p' => Aborted e (chario p') (stdout p')
      | Timeout p' => Unfinished (chario p') (stdout p')
      end
  | Raise e w' => Aborted e w' []
  | Timeout w' => Unfinished w' []
  end.

End WithScanner.

End Parser.

(** ** The two scanners the Parser is run with *)

(** [str(token)], modelled from the spec ("token-description"): the
    category, followed by the lexeme when the token carries one. *)
Definition Token_str (t : Token) : string :=
  match value t with
  | None => code t
  | Some v => code t ++ "(" ++ v ++ ")"
  end.

(** The program as it is: the Parser over [Scanner.GetNextToken] and the
    shared [Chario]. *)
Module Real.
Definition GetNextToken := Scanner.GetNextToken reservedWords.
Definition Parser := Parser.Parser Chario.
Definition run (fuel : nat) (text : string) : Parser.session Chario :=
  Parser.run GetNextToken PrintErrorMessage Token_str fuel (chario_of text).

(** A diagnostic of the Scanner. *)
Definition is_lexical (diag : string) : bool :=
  String.prefix "Unexpected symbol '" diag.

(** The diagnostics [more] are none, or end with one of the Scanner. *)
Definition ends_lexical (more : list string) : Prop :=
  more = [] \/ exists init l, more = (init ++ [l])%list /\ is_lexical l = true.

(** From [p] to [q] the cursor has only moved forward, and diagnostics
    and printed lines have only been appended. *)
Definition advances (p q : Parser) : Prop :=
  (exists consumed,
      source (Parser.chario p) = (consumed ++ source (Parser.chario q))%list)
  /\ (exists more,
        errors (Parser.chario q) = (errors (Parser.chario p) ++ more)%list)
  /\ (exists lines, Parser.stdout q = (Parser.stdout p ++ lines)%list).

(** From [p] to [q] the diagnostics appended are none, or end with one
    of the Scanner. *)
Definition reports_lexical_last (p q : Parser) : Prop :=
  exists more,
    errors (Parser.chario q) = (errors (Parser.chario p) ++ more)%list
    /\ ends_lexical more.

(** A Parser whose lookahead is [t], with [text] still to be scanned. *)
Definition at_ (t : Token) (text : string) (errs out : list string) : Parser :=
  Parser.mkParser (mkChario (list_ascii_of_string text) errs) t out.

(** The character [ch], followed by [rest], begins no token: it is not
    skipped, not a letter, not a digit, not an operator character, and
    not the first of two dots. *)
Definition begins_no_token (ch : ascii) (rest : list ascii) : bool :=
  negb (str_in (String ch "") Scanner.ignoredCharacters)
  && negb (char_isalpha ch) && negb (char_isdigit ch)
  && negb ((String ch "" =? ".") && (PeekNextChar (mkChario rest []) =? "."))
  && negb (str_in (String ch "") Scanner.singleCharOperators)
  && negb (str_in (String ch "") Scanner.possiblyDoubleCharOperators).
End Real.

(** Token constructors, for readable streams. *)
Definition t_id (lexeme : string) : Token := mkToken Tok.ID (Some lexeme).
Definition t_sym (c : string) : Token := mkToken c None.
Definition t_newline : Token := mkToken Tok.NEWLINE None.
Definition t_eof : Token := mkToken Tok.EOF None.

(** A scanner that replays a given token stream, and repeats the EOF
    token once the stream is used up, as [Scanner.GetNextToken] does at
    the end of the input.  It stands for "every token stream" in the
    statements about the Parser alone. *)
Module Replay.
Record Tape : Type := mkTape {
  pending : list Token;   (* the tokens not yet handed out *)
  sink : list string      (* the diagnostics written so far *)
}.

Definition GetNextToken (w : Tape) : outcome Tape Token :=
  match pending w with
  | [] => Ret (mkToken Tok.EOF None) w
  | t :: rest => Ret t (mkTape rest (sink w))
  end.

Definition PrintErrorMessage (msg : string) (w : Tape) : Tape :=
  mkTape (pending w) (sink w ++ [msg])%list.

Definition Parser := Parser.Parser Tape.

(** A Parser whose lookahead is [t], with [rest] still to come. *)
Definition at_ (t : Token) (rest : list Token) (diags out : list string)
  : Parser :=
  Parser.mkParser (mkTape rest diags) t out.

Definition advance := Parser.advance GetNextToken.
Definition ignore_newlines := Parser.ignore_newlines GetNextToken.
Definition discard_loop := Parser.discard_loop GetNextToken Token_str.
Definition discard_tokens := Parser.discard_tokens GetNextToken Token_str.
Definition fatalError :=
  Parser.fatalError GetNextToken PrintErrorMessage Token_str.
Definition accept := Parser.accept GetNextToken PrintErrorMessage Token_str.
Definition name := Parser.name GetNextToken PrintErrorMessage Token_str.
Definition primary := Parser.primary GetNextToken PrintErrorMessage Token_str.
Definition factor := Parser.factor GetNextToken PrintErrorMessage Token_str.
Definition term := Parser.term GetNextToken PrintErrorMessage Token_str.
Definition run := Parser.run GetNextToken PrintErrorMessage Token_str.
Definition simpleExpression :=
  Parser.simpleExpression GetNextToken PrintErrorMessage Token_str.
Definition relation := Parser.relation GetNextToken PrintErrorMessage Token_str.
Definition expression :=
  Parser.expression GetNextToken PrintErrorMessage Token_str.
Definition statement := Parser.statement GetNextToken PrintErrorMessage Token_str.
Definition identifierList :=
  Parser.identifierList GetNextToken PrintErrorMessage Token_str.
Definition subprogramBody :=
  Parser.subprogramBody GetNextToken PrintErrorMessage Token_str.

(** The tokens of a chain of operators and identifiers, [op x op x ...]. *)
Fixpoint operands (chain : list (string * string)) : list Token :=
  match chain with
  | [] => []
  | (op, x) :: more => mkToken op None :: mkToken Tok.ID (Some x) :: operands more
  end.

(** An optional leading sign, and an optional closing identifier. *)
Definition sign_tokens (sign : option string) : list Token :=
  match sign with Some op => [mkToken op None] | None => [] end.

Definition sign_ok (sign : option string) : bool :=
  match sign with Some op => str_in op Tok.addingOperator | None => true end.

Definition closing_tokens (closing : option string) : list Token :=
  match closing with Some x => [mkToken Tok.ID (Some x)] | None => [] end.

(** The tokens [, x , y ...] that continue an identifier list. *)
Definition more_identifiers (xs : list string) : list Token :=
  operands (map (fun x => (Tok.COMMA, x)) xs).

(** Every operator of the chain is an adding operator. *)
Definition adding_chain (chain : list (string * string)) : bool :=
  forallb (fun ox => str_in (fst ox) Tok.addingOperator) chain.

(** The token can follow a simple expression that ends in an identifier:
    it does not continue the name, the factor or the chain. *)
Definition ends_simple_expression (t : Token) : bool :=
  negb (code t =? "(") && negb (code t =? "**")
  && negb (str_in (code t) Tok.addingOperator).

(** The token starts no statement: it is not [if], [while], [loop],
    [null], [exit], an identifier or a newline. *)
Definition starts_no_statement (t : Token) : bool :=
  negb (str_in (code t)
          [Tok.IF; Tok.WHILE; Tok.LOOP; Tok.NULL; Tok.EXIT; Tok.ID;
           Tok.NEWLINE]).

(** The diagnostics in the sink of a Parser's chario. *)
Definition diags (p : Parser) : list string := sink (Parser.chario p).

(** The two ways [accept] can find a mismatch: a newline where a
    line-terminating category is expected, or a lookahead that is not a
    newline and not of the expected category. *)
Definition mismatch (expected : string) (p : Parser) : bool :=
  if code (Parser.token p) =? Tok.NEWLINE
  then str_in expected Parser.line_terminating_tokens
  else negb (code (Parser.token p) =? expected).

(** A Parser that has just read the first token of the stream [s]. *)
Definition start (s : list Token) (diags out : list string) : Parser :=
  at_ (hd t_eof s) (tl s) diags out.

Definition is_newline (t : Token) : bool := code t =? Tok.NEWLINE.

(** The stream without its leading newline tokens. *)
Fixpoint drop_newlines (s : list Token) : list Token :=
  match s with
  | [] => []
  | t :: rest => if is_newline t then drop_newlines rest else s
  end.

(** The descriptions of the tokens [ts], each followed by a space. *)
Fixpoint spaced (ts : list Token) : string :=
  match ts with
  | [] => ""
  | t :: rest => Token_str t ++ " " ++ spaced rest
  end.

(** The line [discard_tokens] prints after discarding [ts]. *)
Definition trailing (ts : list Token) : string :=
  "trailing tokens: " ++ spaced ts ++ "were discarded".

(** The tokens [ps] are a primary in front of the token [nxt]: with the
    budget [f], the rule [primary] consumes exactly [ps] from any stream
    that goes on with [nxt], and leaves [nxt] as the lookahead. *)
Definition is_primary (f : nat) (ps : list Token) (nxt : Token) : Prop :=
  forall rest d o,
    primary f (start (ps ++ nxt :: rest)%list d o)
    = Ret tt (at_ nxt rest d o).

End Replay.

(** * Properties *)

Unset Implicit Arguments.

(** ** Scanner: examples *)

Example scan_beginx :
  Scanner.GetNextToken reservedWords (chario_of "beginx ")
  = Ret (mkToken "id" (Some "beginx")) (mkChario [" "%char] []).
Proof. reflexivity. Qed.

Example scan_begin :
  Scanner.GetNextToken reservedWords (chario_of "  begin;")
  = Ret (mkToken "begin" None) (mkChario [";"%char] []).
Proof. reflexivity. Qed.

Example scan_assign :
  Scanner.GetNextToken reservedWords (chario_of ":= 1")
  = Ret (mkToken ":=" None) (chario_of " 1").
Proof. reflexivity. Qed.

Example scan_bad :
  Scanner.GetNextToken reservedWords (chario_of "@x")
  = Raise "Unexpected symbol" (mkChario ["x"%char] ["Unexpected symbol '@'"]).
Proof. reflexivity. Qed.

(** ** Strings *)

Lemma append_nil_r (s : string) : s ++ "" = s.
Proof. induction s as [|a s IH]; simpl; [reflexivity | now rewrite IH]. Qed.

Lemma append_assoc (s1 s2 s3 : string) : (s1 ++ s2) ++ s3 = s1 ++ (s2 ++ s3).
Proof. induction s1 as [|a s1 IH]; simpl; [reflexivity | now rewrite IH]. Qed.

Lemma length_list_ascii_of_string (s : string) :
  length (list_ascii_of_string s) = String.length s.
Proof. induction s as [|a s IH]; simpl; [reflexivity | now rewrite IH]. Qed.

Lemma str_in_In (x : string) (l : list string) :
  str_in x l = true <-> In x l.
Proof.
  unfold str_in. rewrite existsb_exists. split.
  - intros [y [Hy E]]. apply String.eqb_eq in E. now subst.
  - intros H. exists x. split; [assumption | apply String.eqb_refl].
Qed.

(** One character is never the three-character end-of-input text. *)
Lemma char_is_not_EOF (ch : ascii) : (String ch "" =? "EOF") = false.
Proof. simpl. now destruct (Ascii.eqb ch "E"). Qed.

Ltac all_chars ch :=
  destruct ch as [[] [] [] [] [] [] [] []]; vm_compute;
  intros; first [reflexivity | discriminate].

Lemma alpha_not_delimiter (ch : ascii) :
  char_isalpha ch = true -> str_in (String ch "") Scanner.delimiters = false.
Proof. all_chars ch. Qed.


Lemma alpha_not_LF (ch : ascii) (s : string) :
  char_isalpha ch = true -> String ch s <> LF.
Proof. intros H E. injection E as E _. subst ch. discriminate H. Qed.

Lemma Peek_cons (ch : ascii) (rest : list ascii) (errs : list string) :
  PeekNextChar (mkChario (ch :: rest) errs) = String ch "".
Proof. reflexivity. Qed.

Lemma Get_cons (ch : ascii) (rest : list ascii) (errs : list string) :
  GetNextChar (mkChario (ch :: rest) errs) = (String ch "", mkChario rest errs).
Proof. reflexivity. Qed.

(** ** Scanner: the loop budgets are adequate *)

Section ScannerFacts.

Variable reservedWords : list string.

(** A larger budget than the number of characters left changes nothing:
    the loops stop by themselves. *)
Lemma IntegerToken_loop_budget (n : nat) : forall c result,
  length (source c) <= n ->
  Scanner.IntegerToken_loop n c result
  = Scanner.IntegerToken_loop (length (source c)) c result.
Proof.
  induction n as [|n IH]; intros [src errs] result Hn; simpl in *.
  - now replace (length src) with 0 by lia.
  - destruct src as [|ch rest]; simpl in *; [reflexivity|].
    unfold PeekNextChar, GetNextChar; simpl.
    destruct (char_isdigit ch && true); [|reflexivity].
    apply (IH (mkChario rest errs)). simpl. lia.
Qed.

Lemma AlphabeticToken_loop_budget (n : nat) : forall c result,
  length (source c) <= n ->
  Scanner.AlphabeticToken_loop n c result
  = Scanner.AlphabeticToken_loop (length (source c)) c result.
Proof.
  induction n as [|n IH]; intros [src errs] result Hn;
    cbn [source length] in *.
  - now replace (length src) with 0 by lia.
  - destruct src as [|ch rest]; [reflexivity|].
    cbn [length Scanner.AlphabeticToken_loop] in *.
    unfold PeekNextChar, GetNextChar; cbn [source errors].
    destruct (negb (str_in (String ch "") Scanner.delimiters)); [|reflexivity].
    apply (IH (mkChario rest errs)). cbn [source]. lia.
Qed.

Lemma skip_ignored_budget (n : nat) : forall c,
  length (source c) <= n ->
  Scanner.skip_ignored n c = Scanner.skip_ignored (length (source c)) c.
Proof.
  induction n as [|n IH]; intros [src errs] Hn; cbn [source length] in *.
  - now replace (length src) with 0 by lia.
  - destruct src as [|ch rest]; [reflexivity|].
    cbn [length Scanner.skip_ignored] in *.
    unfold PeekNextChar, GetNextChar; cbn [source errors snd].
    rewrite char_is_not_EOF.
    destruct (str_in (String ch "") Scanner.ignoredCharacters); [|reflexivity].
    apply (IH (mkChario rest errs)). cbn [source]. lia.
Qed.

(** The skipping loop is never cut short: when it breaks, the next
    character is one it does not ignore. *)
Lemma skip_ignored_breaks : forall src errs c',
  Scanner.skip_ignored (length src) (mkChario src errs) = (c', false) ->
  exists ch rest, c' = mkChario (ch :: rest) errs
    /\ str_in (String ch "") Scanner.ignoredCharacters = false.
Proof.
  induction src as [|ch rest IH]; intros errs c' H.
  - discriminate H.
  - cbn [length Scanner.skip_ignored] in H.
    unfold PeekNextChar, GetNextChar in H; cbn [source errors snd] in H.
    rewrite char_is_not_EOF in H.
    destruct (str_in (String ch "") Scanner.ignoredCharacters) eqn:E.
    + now apply IH.
    + injection H as <-. now exists ch, rest.
Qed.

(** An ignored character in front changes nothing to the token found. *)
Lemma GetNextToken_skips (ch : ascii) (rest : list ascii) (errs : list string) :
  str_in (String ch "") Scanner.ignoredCharacters = true ->
  Scanner.GetNextToken reservedWords (mkChario (ch :: rest) errs)
  = Scanner.GetNextToken reservedWords (mkChario rest errs).
Proof.
  intros H. unfold Scanner.GetNextToken.
  cbn [source length Scanner.skip_ignored].
  rewrite !Peek_cons, Get_cons, char_is_not_EOF, H. reflexivity.
Qed.

(** A character that is not ignored is where the token starts. *)
Lemma GetNextToken_starts (ch : ascii) (rest : list ascii) (errs : list string) :
  str_in (String ch "") Scanner.ignoredCharacters = false ->
  Scanner.GetNextToken reservedWords (mkChario (ch :: rest) errs)
  = let c := mkChario (ch :: rest) errs in
    if char_isalpha ch then Scanner.AlphabeticToken reservedWords c
    else if char_isdigit ch then Scanner.IntegerToken c
    else Scanner.OperatorToken c.
Proof.
  intros H. unfold Scanner.GetNextToken.
  cbn [source length Scanner.skip_ignored].
  rewrite !Peek_cons, char_is_not_EOF, H. cbv zeta.
  rewrite !Peek_cons. unfold isalpha, isdigit; cbn [str_all].
  now rewrite !andb_true_r.
Qed.

End ScannerFacts.

(** ** Scanner: tokens *)



Lemma AlphabeticToken_loop_prefix : forall (n : nat) c acc r c',
  Scanner.AlphabeticToken_loop n c acc = (r, c') ->
  exists s, r = acc ++ s.
Proof.
  induction n as [|n IH]; intros c acc r c' H; cbn [Scanner.AlphabeticToken_loop] in H.
  - injection H as <- _. exists "". now rewrite append_nil_r.
  - destruct (negb (str_in (PeekNextChar c) Scanner.delimiters)).
    + destruct (GetNextChar c) as [ch c1]. apply IH in H. destruct H as [s ->].
      exists (ch ++ s). now rewrite append_assoc.
    + injection H as <- _. exists "". now rewrite append_nil_r.
Qed.

Lemma single_op_not_LF (ch : ascii) :
  str_in (String ch "") Scanner.singleCharOperators = true ->
  ch <> ascii_of_nat 10.
Proof. intros H ->. discriminate H. Qed.

Lemma double_op_not_LF (ch : ascii) :
  str_in (String ch "") Scanner.possiblyDoubleCharOperators = true ->
  ch <> ascii_of_nat 10.
Proof. intros H ->. discriminate H. Qed.

Lemma OperatorToken_never_newline (ch : ascii) rest errs t c' :
  Scanner.OperatorToken (mkChario (ch :: rest) errs) = Ret t c' ->
  code t <> Tok.NEWLINE.
Proof.
  unfold Scanner.OperatorToken. rewrite Get_cons.
  destruct ((String ch "" =? ".") && _).
  - destruct (GetNextChar _). intros H; injection H as <- _. discriminate.
  - destruct (str_in (String ch "") Scanner.singleCharOperators) eqn:E1.
    + intros H; injection H as <- _. cbn [code]. intros E.
      injection E as E. now apply (single_op_not_LF _ E1).
    + destruct (str_in (String ch "") Scanner.possiblyDoubleCharOperators) eqn:E2;
        [|discriminate].
      destruct (str_in _ Scanner.doubleCharOperators).
      * destruct (GetNextChar _) as [ch2 c2].
        intros H; injection H as <- _. cbn [code append]. intros E.
        injection E as E _. now apply (double_op_not_LF _ E2).
      * intros H; injection H as <- _. cbn [code]. intros E.
        injection E as E. now apply (double_op_not_LF _ E2).
Qed.

(** The Scanner never produces a token of the newline category. *)
Lemma GetNextToken_never_newline (rw : list string) (c : Chario) t c' :
  Scanner.GetNextToken rw c = Ret t c' -> code t <> Tok.NEWLINE.
Proof.
  destruct c as [src errs]. unfold Scanner.GetNextToken. cbn [source].
  destruct (Scanner.skip_ignored _ _) as [c1 at_eof] eqn:E.
  destruct at_eof.
  - intros H; injection H as <- _. discriminate.
  - apply skip_ignored_breaks in E. destruct E as (ch & rest & -> & Hch).
    rewrite Peek_cons. unfold isalpha, isdigit. cbn [str_all].
    rewrite !andb_true_r.
    destruct (char_isalpha ch) eqn:Ea; [|destruct (char_isdigit ch)].
    + unfold Scanner.AlphabeticToken. cbn [source length Scanner.AlphabeticToken_loop].
      rewrite Peek_cons, Get_cons, (alpha_not_delimiter _ Ea). cbn [negb append].
      destruct (Scanner.AlphabeticToken_loop _ _ _) as [r c2] eqn:El.
      apply AlphabeticToken_loop_prefix in El. destruct El as [s ->].
      destruct (str_in _ rw); intros H; injection H as <- _; cbn [code append].
      * now apply alpha_not_LF.
      * discriminate.
    + unfold Scanner.IntegerToken.
      destruct (Scanner.IntegerToken_loop _ _ _).
      intros H; injection H as <- _. discriminate.
    + apply OperatorToken_never_newline.
Qed.



(** C1.  What [GetNextToken] does with the newline.  It skips the
    characters of the set {space, newline, carriage-return, tab,
    backslash}: such a character in front of the input changes nothing to
    the outcome.  Any other character is not skipped: the token (or the
    lexical error) starts at it.  The newline is in the skipped set, and
    no token of the newline category is ever returned, although
    [ignore_newlines], [discard_tokens] and [accept] of the Parser test
    the lookahead for that category. *)
Theorem GetNextToken_ignored_set (rw : list string) :
  (forall ch rest errs,
     Scanner.GetNextToken rw (mkChario (ch :: rest) errs)
     = if str_in (String ch "") [" "; LF; CR; TAB; BACKSLASH]
       then Scanner.GetNextToken rw (mkChario rest errs)
       else let c := mkChario (ch :: rest) errs in
            if char_isalpha ch then Scanner.AlphabeticToken rw c
            else if char_isdigit ch then Scanner.IntegerToken c
            else Scanner.OperatorToken c)
  /\ (forall c t c',
        Scanner.GetNextToken rw c = Ret t c' -> code t <> Tok.NEWLINE).
Proof.
  split.
  - intros ch rest errs.
    destruct (str_in (String ch "") [" "; LF; CR; TAB; BACKSLASH]) eqn:E.
    + now apply GetNextToken_skips.
    + now apply GetNextToken_starts.
  - intros c t c'. apply GetNextToken_never_newline.
Qed.

Lemma GetNextToken_ignored_set_witness :
  code (mkToken "id" (Some "x")) <> Tok.NEWLINE.
Proof.
  exact (proj2 (GetNextToken_ignored_set reservedWords)
           (mkChario [ascii_of_nat 10; "x"%char] [])
           (mkToken "id" (Some "x")) (mkChario [] []) eq_refl).
Defined.

(** On a newline followed by [x]: the newline is skipped like a space,
    and the token returned is the identifier, not a newline token. *)
Lemma newline_is_skipped :
  Scanner.GetNextToken reservedWords (mkChario [ascii_of_nat 10; "x"%char] [])
  = Ret (mkToken "id" (Some "x")) (mkChario [] [])
  /\ ~ (exists t c',
          Scanner.GetNextToken reservedWords
            (mkChario [ascii_of_nat 10; "x"%char] []) = Ret t c'
          /\ code t = Tok.NEWLINE).
Proof.
  split; [reflexivity|].
  intros (t & c' & H & E). vm_compute in H. injection H as <- _. discriminate E.
Qed.

(** ** Sequencing, handlers and loops *)

Section Combinators.

Context {S : Type}.

Lemma bind_ret_l {A B} (m : M S A) (k : A -> M S B) s a s' :
  m s = Ret a s' -> bind m k s = k a s'.
Proof. unfold bind. now intros ->. Qed.

Lemma bind_raise_l {A B} (m : M S A) (k : A -> M S B) s e s' :
  m s = Raise e s' -> bind m k s = Raise e s'.
Proof. unfold bind. now intros ->. Qed.

Lemma bind_timeout_l {A B} (m : M S A) (k : A -> M S B) s :
  is_timeout (m s) = true -> is_timeout (bind m k s) = true.
Proof. unfold bind. now destruct (m s). Qed.

(** A call that never returns normally makes what follows it dead. *)
Lemma bind_no_ret (m k : M S unit) s :
  is_ret (m s) = false -> (m ;; k) s = m s.
Proof. unfold bind. now destruct (m s). Qed.

Lemma bind_ret_r (m : M S unit) s : (m ;; ret tt) s = m s.
Proof. unfold bind, ret. now destruct (m s) as [[] ?| |]. Qed.

Lemma try_ret (m h : M S unit) s s' :
  m s = Ret tt s' -> try_ m h s = Ret tt s'.
Proof. unfold try_. now intros ->. Qed.

Lemma try_raise (m h : M S unit) s e s' :
  m s = Raise e s' -> try_ m h s = h s'.
Proof. unfold try_. now intros ->. Qed.

Lemma try_timeout (m h : M S unit) s :
  is_timeout (m s) = true -> is_timeout (try_ m h s) = true.
Proof. unfold try_. now destruct (m s). Qed.

Lemma while_false (fuel : nat) (c : S -> bool) (body : M S unit) s :
  c s = false -> while_ fuel c body s = Ret tt s.
Proof. destruct fuel; simpl; now intros ->. Qed.

Lemma while_true (fuel : nat) (c : S -> bool) (body : M S unit) s :
  c s = true -> while_ (Datatypes.S fuel) c body s = (body ;; while_ fuel c body) s.
Proof. simpl. now intros ->. Qed.

Lemma keeps_bind {X A B} (f : S -> X) (m : M S A) (k : A -> M S B) :
  keeps f m -> (forall a, keeps f (k a)) -> keeps f (bind m k).
Proof.
  intros Hm Hk s. unfold bind. specialize (Hm s).
  destruct (m s) as [a s'| |]; cbn [final] in *; [|assumption|assumption].
  now rewrite Hk.
Qed.

Lemma keeps_ret {X A} (f : S -> X) (a : A) : keeps f (ret a).
Proof. intros s. reflexivity. Qed.

Lemma keeps_raise {X A} (f : S -> X) (e : string) : keeps f (@raise S A e).
Proof. intros s. reflexivity. Qed.

Lemma keeps_ifM {X A} (f : S -> X) (c : S -> bool) (a b : M S A) :
  keeps f a -> keeps f b -> keeps f (ifM c a b).
Proof. intros Ha Hb s. unfold ifM. destruct (c s); [apply Ha | apply Hb]. Qed.

Lemma keeps_while {X} (f : S -> X) (fuel : nat) (c : S -> bool) (body : M S unit) :
  keeps f body -> keeps f (while_ fuel c body).
Proof.
  intros Hb. induction fuel as [|fuel IH]; intros s; simpl.
  - now destruct (c s).
  - destruct (c s); [|reflexivity].
    apply keeps_bind; [assumption | intros _; exact IH].
Qed.

Lemma ifM_true {A} (c : S -> bool) (a b : M S A) s :
  c s = true -> ifM c a b s = a s.
Proof. unfold ifM. now intros ->. Qed.

Lemma ifM_false {A} (c : S -> bool) (a b : M S A) s :
  c s = false -> ifM c a b s = b s.
Proof. unfold ifM. now intros ->. Qed.

Lemma never_raises_bind {A B} (m : M S A) (k : A -> M S B) :
  never_raises m -> (forall a, never_raises (k a)) -> never_raises (bind m k).
Proof.
  intros Hm Hk s. unfold bind. specialize (Hm s).
  destruct (m s); [apply Hk | discriminate | reflexivity].
Qed.

Lemma never_raises_try (m h : M S unit) :
  never_raises h -> never_raises (try_ m h).
Proof.
  intros Hh s. unfold try_. destruct (m s); [reflexivity | apply Hh | reflexivity].
Qed.

Lemma never_raises_timeout {A} : never_raises (@timeout S A).
Proof. intros s. reflexivity. Qed.

Lemma never_raises_while (fuel : nat) (c : S -> bool) (body : M S unit) :
  never_raises body -> never_raises (while_ fuel c body).
Proof.
  intros Hb. induction fuel as [|fuel IH]; intros s; simpl.
  - now destruct (c s).
  - destruct (c s); [|reflexivity].
    apply never_raises_bind; [assumption | intros _; exact IH].
Qed.

End Combinators.

(** ** Parser, over any scanner *)

Section ParserFacts.

Variable W : Type.
Variable G : W -> outcome W Token.
Variable Pr : string -> W -> W.
Variable Ts : Token -> string.

Local Abbreviation Parser := (Parser.Parser W).
Local Abbreviation advance := (Parser.advance G).
Local Abbreviation ignore_newlines := (Parser.ignore_newlines G).
Local Abbreviation discard_tokens := (Parser.discard_tokens G Ts).
Local Abbreviation discard_loop := (Parser.discard_loop G Ts).
Local Abbreviation basicDeclaration := (Parser.basicDeclaration G Pr Ts).
Local Abbreviation fatalError := (Parser.fatalError G Pr Ts).
Local Abbreviation accept := (Parser.accept G Pr Ts).
Local Abbreviation primary := (Parser.primary G Pr Ts).
Local Abbreviation factor := (Parser.factor G Pr Ts).
Local Abbreviation term := (Parser.term G Pr Ts).
Local Abbreviation statement := (Parser.statement G Pr Ts).
Local Abbreviation sequenceOfStatements := (Parser.sequenceOfStatements G Pr Ts).
Local Abbreviation declarativePart := (Parser.declarativePart G Pr Ts).
Local Abbreviation subprogramBody := (Parser.subprogramBody G Pr Ts).
Local Abbreviation parse := (Parser.parse G Pr Ts).
Local Abbreviation init := (Parser.init G).
Local Abbreviation run := (Parser.run G Pr Ts).
Local Abbreviation diagnostic := (Parser.diagnostic Ts).

(** [fatalError] ends in [raise]: it never returns normally. *)
Lemma fatalError_no_ret (fuel : nat) (msg : string) (p : Parser) :
  is_ret (fatalError fuel msg p) = false.
Proof.
  unfold Parser.fatalError, bind, Parser.PrintErrorMessage, raise.
  now destruct (discard_tokens fuel _).
Qed.

(** The newline rule of [accept]: with a newline as the lookahead and a
    line-terminating category expected, the call is the fatal-error
    routine itself, run on the state as it is (the newline still the
    lookahead, nothing skipped). *)
Lemma accept_newline_is_fatal (fuel : nat) (expected msg : string) (p : Parser) :
  code (Parser.token p) = Tok.NEWLINE ->
  str_in expected Parser.line_terminating_tokens = true ->
  accept fuel expected msg p
  = fatalError fuel (diagnostic expected (Parser.token p)) p.
Proof.
  intros Hn He. unfold Parser.accept.
  rewrite bind_no_ret.
  - unfold when_, ifM. now rewrite Hn, He.
  - unfold when_, ifM. rewrite Hn, He. apply fatalError_no_ret.
Qed.

(** The message argument of [accept] is dead: it is overwritten before
    any use. *)
Lemma accept_message_dead (fuel : nat) (expected m1 m2 : string) (p : Parser) :
  accept fuel expected m1 p = accept fuel expected m2 p.
Proof. reflexivity. Qed.

(** The loop of [term] tests the [Token] object against the category
    strings, which never holds: the loop body never runs, and [term] is
    one [factor]. *)
Lemma term_is_one_factor (fuel : nat) (p : Parser) :
  term (S fuel) p = factor fuel p.
Proof.
  change (term (S fuel) p)
    with ((factor fuel ;;
           while_ fuel (fun p => Token_in (Parser.token p) Tok.multiplyingOperator)
                  (advance ;; factor fuel)) p).
  unfold bind. destruct (factor fuel p) as [[] p'| |]; try reflexivity.
  now apply while_false.
Qed.

(** No exception leaves [print], [statement], a statement sequence, the
    declarative part or a subprogram body: each wraps what it calls in a
    handler that catches every [RuntimeError], the Scanner's included. *)
Lemma print_never_raises (line : string) :
  never_raises (Parser.print (W:=W) line).
Proof. intros p. reflexivity. Qed.

Lemma statement_never_raises (fuel : nat) : never_raises (statement fuel).
Proof.
  destruct fuel as [|f]; [apply never_raises_timeout|].
  apply never_raises_try, print_never_raises.
Qed.

Lemma sequenceOfStatements_never_raises (fuel : nat) :
  never_raises (sequenceOfStatements fuel).
Proof.
  destruct fuel as [|f]; [apply never_raises_timeout|].
  apply never_raises_bind; [apply statement_never_raises|].
  intros _. apply never_raises_while, statement_never_raises.
Qed.

Lemma subprogramBody_never_raises (fuel : nat) :
  never_raises (subprogramBody fuel).
Proof.
  destruct fuel as [|f]; [apply never_raises_timeout|].
  repeat (apply never_raises_bind;
          [apply never_raises_try, print_never_raises | intros _]).
  apply never_raises_try, print_never_raises.
Qed.

(** One iteration of the discarding loop. *)
Lemma discard_loop_step (fuel : nat) (msg : string) (p : Parser) t w :
  (code (Parser.token p) =? Tok.NEWLINE) = false ->
  G (Parser.chario p) = Ret t w ->
  discard_loop (S fuel) msg p
  = discard_loop fuel (msg ++ Ts (Parser.token p) ++ " ")
      (Parser.mkParser w t (Parser.stdout p)).
Proof.
  intros Hn Hg. cbn [Parser.discard_loop]. rewrite Hn. cbn [negb].
  unfold bind, Parser.advance. now rewrite Hg.
Qed.

(** Over a scanner that never yields a newline token, as the Scanner of
    the repository is, the discarding loop never ends normally: it hangs,
    or the scanner raises. *)
Lemma discard_loop_no_ret :
  (forall w t w', G w = Ret t w' -> code t <> Tok.NEWLINE) ->
  forall (fuel : nat) (msg : string) (p : Parser),
    (code (Parser.token p) =? Tok.NEWLINE) = false ->
    is_ret (discard_loop fuel msg p) = false.
Proof.
  intros HG. induction fuel as [|fuel IH]; intros msg p Hn;
    cbn [Parser.discard_loop]; rewrite Hn; cbn [negb]; [reflexivity|].
  unfold bind, Parser.advance.
  destruct (G (Parser.chario p)) as [t w|e w|w] eqn:Hg; try reflexivity.
  apply IH. cbn [Parser.token]. apply String.eqb_neq. now apply (HG _ _ _ Hg).
Qed.

Lemma discard_tokens_no_ret :
  (forall w t w', G w = Ret t w' -> code t <> Tok.NEWLINE) ->
  forall (fuel : nat) (p : Parser),
    is_ret (discard_tokens fuel p) = false.
Proof.
  intros HG fuel p. unfold Parser.discard_tokens, bind at 1, Parser.advance.
  destruct (G (Parser.chario p)) as [t w|e w|w] eqn:Hg; try reflexivity.
  unfold bind at 1.
  pose proof (discard_loop_no_ret HG fuel
    ("trailing tokens: " ++ Ts (Parser.token p) ++ " ")
    (Parser.mkParser w t (Parser.stdout p))) as H.
  destruct (discard_loop fuel _ _); try reflexivity.
  discriminate H. cbn [Parser.token]. apply String.eqb_neq. now apply (HG _ _ _ Hg).
Qed.

(** The unfoldings of the rules of a subprogram body. *)
Lemma subprogramBody_S (f : nat) :
  subprogramBody (S f)
  = (try_ (Parser.subprogramSpecification G Pr Ts f ;;
           accept f Tok.IS "'is' expected")
          (Parser.print
             ("continue parsing from declarative part of subprogram body"
              ++ LF)) ;;
     try_ (declarativePart f)
          (Parser.print
             ("continue parsing from [begin] of subprogram body" ++ LF)) ;;
     try_ (accept f Tok.BEGIN "'begin' expected")
          (Parser.print
             ("continue parsing from sequence of statement of subprogram body"
              ++ LF)) ;;
     try_ (sequenceOfStatements f)
          (Parser.print
             ("continue parsing from [end] of subprogram body" ++ LF)) ;;
     try_ (accept f Tok.END "'end' expected" ;;
           when_ (Parser.tok_is Tok.ID) advance ;;
           accept f Tok.SEMICOLON "semicolon expected")
          (Parser.print ("stop parsing subprogram body" ++ LF))).
Proof. reflexivity. Qed.

Lemma declarativePart_S (f : nat) :
  declarativePart (S f)
  = while_ f (Parser.tok_in Tok.basicDeclarationHandles)
      (try_ (basicDeclaration f)
         (Parser.print
            ("continue parsing basic declaration of declarative part"
             ++ LF))).
Proof. reflexivity. Qed.

Lemma basicDeclaration_S (f : nat) :
  basicDeclaration (S f)
  = ifM (Parser.tok_is Tok.ID)
        (Parser.numberOrObjectDeclaration G Pr Ts f)
    (ifM (Parser.tok_is Tok.TYPE)
        (Parser.typeDeclaration G Pr Ts f)
    (when_ (Parser.tok_is Tok.PROC)
        (subprogramBody f))).
Proof. reflexivity. Qed.

(** A session aborts only in the constructor, on the first token. *)
Lemma abort_only_in_init (fuel : nat) (w : W) e w' out :
  run fuel w = Parser.Aborted e w' out ->
  init w = Raise e w' /\ out = [].
Proof.
  unfold Parser.run. destruct (init w) as [p w1|e1 w1|w1].
  - pose proof (subprogramBody_never_raises fuel p) as H.
    unfold Parser.parse. destruct (subprogramBody fuel p); discriminate.
  - intros H. injection H as -> -> <-. now split.
  - discriminate.
Qed.

End ParserFacts.

(** ** Parser, over a replayed token stream *)

Section ReplayFacts.

Import Replay.

Lemma advance_start (t : Token) (rest : list Token) d o :
  Replay.advance (at_ t rest d o) = Ret tt (start rest d o).
Proof. now destruct rest. Qed.

Lemma start_cons (t : Token) (rest : list Token) d o :
  start (t :: rest) d o = at_ t rest d o.
Proof. reflexivity. Qed.

Lemma drop_newlines_lands (s : list Token) :
  is_newline (hd t_eof (drop_newlines s)) = false.
Proof.
  induction s as [|t s IH]; [reflexivity|].
  simpl. destruct (is_newline t) eqn:E; [assumption | exact E].
Qed.

Lemma ignore_newlines_drops : forall (s : list Token) (fuel : nat) d o,
  length s <= fuel ->
  Replay.ignore_newlines fuel (start s d o)
  = Ret tt (start (drop_newlines s) d o).
Proof.
  unfold Replay.ignore_newlines, Parser.ignore_newlines.
  induction s as [|t s IH]; intros fuel d o Hf.
  - now apply while_false.
  - cbn [drop_newlines]. destruct (is_newline t) eqn:E.
    + destruct fuel as [|fuel]; [simpl in Hf; lia|].
      rewrite while_true by exact E.
      rewrite start_cons.
      erewrite bind_ret_l by apply advance_start.
      apply IH. simpl in Hf. lia.
    + now apply while_false.
Qed.

(** The discarding loop stops at the first newline token. *)
Lemma discard_loop_stops : forall (pre : list Token) (fuel : nat) msg nl post d o,
  forallb (fun t => negb (is_newline t)) pre = true ->
  is_newline nl = true ->
  length pre <= fuel ->
  Replay.discard_loop fuel msg (start (pre ++ nl :: post)%list d o)
  = Ret (msg ++ spaced pre) (start (nl :: post) d o).
Proof.
  induction pre as [|t pre IH]; intros fuel msg nl post d o Hp Hn Hf.
  - cbn [app spaced]. rewrite append_nil_r.
    destruct fuel; simpl; unfold is_newline in Hn; cbn [hd]; now rewrite Hn.
  - cbn [forallb] in Hp. apply andb_true_iff in Hp. destruct Hp as [Ht Hp].
    destruct fuel as [|fuel]; [simpl in Hf; lia|].
    cbn [app]. rewrite start_cons.
    cbn [Replay.discard_loop Parser.discard_loop at_ Parser.token].
    unfold is_newline in Ht. rewrite Ht.
    erewrite bind_ret_l by apply advance_start.
    fold Replay.discard_loop.
    rewrite IH by (try assumption; simpl in Hf; lia).
    cbn [spaced]. now rewrite !append_assoc.
Qed.

(** Without a newline token ahead, the discarding loop never ends: at
    the end of the stream the scanner repeats the EOF token, which is not
    a newline. *)
Lemma discard_loop_hangs : forall (fuel : nat) (s : list Token) msg d o,
  forallb (fun t => negb (is_newline t)) s = true ->
  is_timeout (Replay.discard_loop fuel msg (start s d o)) = true.
Proof.
  induction fuel as [|fuel IH]; intros s msg d o Hs.
  - destruct s as [|t s]; [reflexivity|].
    cbn [forallb] in Hs. apply andb_true_iff in Hs. destruct Hs as [Ht _].
    simpl. unfold is_newline in Ht. now rewrite Ht.
  - assert (Hhd : negb (code (hd t_eof s) =? Tok.NEWLINE) = true).
    { destruct s as [|t s]; [reflexivity|].
      cbn [forallb] in Hs. now apply andb_true_iff in Hs. }
    cbn [Replay.discard_loop Parser.discard_loop start at_ Parser.token].
    rewrite Hhd.
    erewrite bind_ret_l by apply advance_start.
    apply IH. destruct s as [|t s]; [reflexivity|].
    cbn [forallb] in Hs. now apply andb_true_iff in Hs.
Qed.

Lemma discard_tokens_hangs (fuel : nat) (t : Token) (s : list Token) d o :
  forallb (fun t => negb (is_newline t)) s = true ->
  is_timeout (Replay.discard_tokens fuel (at_ t s d o)) = true.
Proof.
  intros Hs. unfold Replay.discard_tokens, Parser.discard_tokens.
  erewrite bind_ret_l by apply advance_start.
  apply bind_timeout_l. now apply discard_loop_hangs.
Qed.

(** With a newline token ahead, [discard_tokens] does what it is meant
    to: it discards up to and including the newline, skips the newlines
    that follow and leaves the lookahead on the first token after them
    (or on EOF). *)
Lemma discard_tokens_lands (fuel : nat) (t : Token) pre nl post d o :
  forallb (fun t => negb (is_newline t)) pre = true ->
  is_newline nl = true ->
  length pre + length post < fuel ->
  Replay.discard_tokens fuel (at_ t (pre ++ nl :: post)%list d o)
  = Ret tt (start (drop_newlines post) d (o ++ [trailing (t :: pre)])%list).
Proof.
  intros Hp Hn Hf. unfold Replay.discard_tokens, Parser.discard_tokens.
  erewrite bind_ret_l by apply advance_start.
  erewrite bind_ret_l
    by (apply discard_loop_stops; [assumption | assumption | lia]).
  erewrite bind_ret_l.
  2:{ apply (ignore_newlines_drops (nl :: post)). simpl. lia. }
  cbn [drop_newlines]. rewrite Hn.
  unfold Parser.print, start, at_, trailing. cbn [Parser.chario Parser.token Parser.stdout spaced].
  now rewrite !append_assoc.
Qed.

(** *** Names, primaries and factors on a stream *)

Lemma accept_id (n : nat) (a msg : string) (t : Token) rest d o :
  Replay.accept n Tok.ID msg (at_ (t_id a) (t :: rest) d o)
  = Ret tt (at_ t rest d o).
Proof. destruct n; reflexivity. Qed.

(** An identifier that is not followed by an opening parenthesis is a
    name, a primary and, when it is not followed by [**] either, a
    factor. *)
Lemma name_id (n : nat) (a : string) (t : Token) rest d o :
  (code t =? "(") = false ->
  Replay.name (1 + n) (at_ (t_id a) (t :: rest) d o) = Ret tt (at_ t rest d o).
Proof.
  intros Ht.
  change (Replay.name (1 + n) (at_ (t_id a) (t :: rest) d o))
    with ((Replay.accept n Tok.ID "identifier expected" ;;
           when_ (Parser.tok_is Tok.PARENTHESIS_OPEN)
             (Parser.indexedComponent GetNextToken PrintErrorMessage Token_str n))
            (at_ (t_id a) (t :: rest) d o)).
  erewrite bind_ret_l by apply accept_id.
  unfold when_, ifM, Parser.tok_is. cbn [at_ Parser.token].
  change Tok.PARENTHESIS_OPEN with "(". now rewrite Ht.
Qed.

Lemma primary_id (n : nat) (a : string) (t : Token) rest d o :
  (code t =? "(") = false ->
  Replay.primary (2 + n) (at_ (t_id a) (t :: rest) d o)
  = Ret tt (at_ t rest d o).
Proof. intros Ht. now rewrite <- (name_id n a t rest d o Ht). Qed.

(** After [not], the factor is the primary alone: a [**] that follows is
    left as the lookahead. *)
Lemma factor_not (n : nat) (a : string) (t : Token) rest d o :
  (code t =? "(") = false ->
  Replay.factor (3 + n) (at_ (t_sym "not") (t_id a :: t :: rest) d o)
  = Ret tt (at_ t rest d o).
Proof. intros Ht. now rewrite <- (primary_id n a t rest d o Ht). Qed.

Lemma factor_plain (n : nat) (a : string) (t : Token) rest d o :
  (code t =? "(") = false ->
  (code t =? "**") = false ->
  Replay.factor (3 + n) (at_ (t_id a) (t :: rest) d o)
  = Ret tt (at_ t rest d o).
Proof.
  intros H1 H2.
  change (Replay.factor (3 + n) (at_ (t_id a) (t :: rest) d o))
    with ((Replay.primary (2 + n) ;;
           when_ (Parser.tok_is Tok.SQUARE)
             (Replay.advance ;; Replay.primary (2 + n)))
            (at_ (t_id a) (t :: rest) d o)).
  erewrite bind_ret_l by now apply primary_id.
  unfold when_, ifM, Parser.tok_is. cbn [at_ Parser.token].
  change Tok.SQUARE with "**". now rewrite H2.
Qed.

Lemma factor_power (n : nat) (a b : string) (t : Token) rest d o :
  (code t =? "(") = false ->
  Replay.factor (3 + n)
    (at_ (t_id a) (t_sym "**" :: t_id b :: t :: rest) d o)
  = Ret tt (at_ t rest d o).
Proof.
  intros H1.
  change (Replay.factor (3 + n)
            (at_ (t_id a) (t_sym "**" :: t_id b :: t :: rest) d o))
    with ((Replay.primary (2 + n) ;;
           when_ (Parser.tok_is Tok.SQUARE)
             (Replay.advance ;; Replay.primary (2 + n)))
            (at_ (t_id a) (t_sym "**" :: t_id b :: t :: rest) d o)).
  erewrite bind_ret_l by now apply primary_id.
  unfold when_, ifM, Parser.tok_is. cbn [at_ Parser.token t_sym code].
  change (Tok.SQUARE =? Tok.SQUARE) with true. cbv iota.
  erewrite bind_ret_l by apply advance_start.
  now apply primary_id.
Qed.

(** *** The diagnostic sink *)

Lemma advance_keeps_diags : keeps diags Replay.advance.
Proof. intros [[pend snk] t out]. now destruct pend. Qed.

Lemma print_keeps_diags (line : string) :
  keeps diags (Parser.print (W:=Tape) line).
Proof. intros p. reflexivity. Qed.

Lemma ignore_newlines_keeps_diags (fuel : nat) :
  keeps diags (Replay.ignore_newlines fuel).
Proof. apply keeps_while, advance_keeps_diags. Qed.

Lemma discard_loop_keeps_diags : forall (fuel : nat) (msg : string),
  keeps diags (Replay.discard_loop fuel msg).
Proof.
  induction fuel as [|fuel IH]; intros msg p;
    cbn [Replay.discard_loop Parser.discard_loop].
  - now destruct (negb _).
  - destruct (negb _); [|reflexivity].
    apply keeps_bind; [apply advance_keeps_diags | intros _; apply IH].
Qed.

Lemma discard_tokens_keeps_diags (fuel : nat) :
  keeps diags (Replay.discard_tokens fuel).
Proof.
  intros p. unfold Replay.discard_tokens, Parser.discard_tokens.
  apply keeps_bind; [apply advance_keeps_diags | intros _].
  apply keeps_bind; [apply discard_loop_keeps_diags | intros m].
  apply keeps_bind; [apply ignore_newlines_keeps_diags | intros _].
  apply print_keeps_diags.
Qed.

(** [fatalError] writes its message to the sink, once, and nothing else
    is written before it ends (or hangs). *)
Lemma fatalError_diags (fuel : nat) (msg : string) (p : Replay.Parser) :
  diags (final (Replay.fatalError fuel msg p)) = (diags p ++ [msg])%list.
Proof.
  unfold Replay.fatalError, Parser.fatalError.
  erewrite bind_ret_l by reflexivity.
  rewrite (keeps_bind diags (Replay.discard_tokens fuel) _
             (discard_tokens_keeps_diags fuel)
             (fun _ => keeps_raise diags _)).
  reflexivity.
Qed.

(** With a newline token ahead, [fatalError] ends by raising. *)
Lemma fatalError_raises (fuel : nat) (msg : string) (t : Token) pre nl post d o :
  forallb (fun t => negb (is_newline t)) pre = true ->
  is_newline nl = true ->
  length pre + length post < fuel ->
  Replay.fatalError fuel msg (at_ t (pre ++ nl :: post)%list d o)
  = Raise ("Fatal error: " ++ msg)
      (start (drop_newlines post) (d ++ [msg])%list
             (o ++ [trailing (t :: pre)])%list).
Proof.
  intros Hp Hn Hf. unfold Replay.fatalError, Parser.fatalError.
  erewrite bind_ret_l by reflexivity.
  erewrite bind_ret_l.
  2:{ apply (discard_tokens_lands fuel t pre nl post (d ++ [msg])%list o);
      assumption. }
  reflexivity.
Qed.

(** Without a newline token ahead, [fatalError] never reaches its
    [raise]: it hangs in the discard. *)
Lemma fatalError_hangs (fuel : nat) (msg : string) (t : Token) s d o :
  forallb (fun t => negb (is_newline t)) s = true ->
  is_timeout (Replay.fatalError fuel msg (at_ t s d o)) = true.
Proof.
  intros Hs. unfold Replay.fatalError, Parser.fatalError.
  erewrite bind_ret_l by reflexivity.
  apply bind_timeout_l.
  exact (discard_tokens_hangs fuel t s (d ++ [msg])%list o Hs).
Qed.

(** Leading newline tokens are skipped up to the first token that is not
    one. *)
Lemma ignore_newlines_run : forall (nls : list Token) (fuel : nat) t rest d o,
  forallb is_newline nls = true ->
  is_newline t = false ->
  length nls <= fuel ->
  Replay.ignore_newlines fuel (start (nls ++ t :: rest)%list d o)
  = Ret tt (at_ t rest d o).
Proof.
  unfold Replay.ignore_newlines, Parser.ignore_newlines.
  induction nls as [|nl nls IH]; intros fuel t rest d o Hn Ht Hf.
  - now apply while_false.
  - cbn [forallb] in Hn. apply andb_true_iff in Hn. destruct Hn as [Hnl Hn].
    destruct fuel as [|fuel]; [simpl in Hf; lia|].
    cbn [app]. rewrite start_cons.
    rewrite while_true by exact Hnl.
    erewrite bind_ret_l by apply advance_start.
    apply IH; try assumption. simpl in Hf. lia.
Qed.

End ReplayFacts.

(** ** The Parser on a token stream: discard, term and factor *)

Section StreamProperties.

Import Replay.

(** C2.  The discard routine does not always terminate.  With the
    identifier [x] as the lookahead and the stream [y] (no newline token
    before the end of the input), [discard_tokens] exhausts every budget:
    once the stream is used up the scanner repeats the EOF token, and the
    loop waits for a newline token without ever testing for EOF. *)
Theorem discard_tokens_hangs_without_newline :
  forall fuel : nat,
    is_timeout (Replay.discard_tokens fuel (at_ (t_id "x") [t_id "y"] [] []))
    = true.
Proof. intros fuel. now apply discard_tokens_hangs. Qed.

(** C4.  [term] stops after the first factor.  On the stream
    [a op b ...] with [op] a multiplying operator, it returns with the
    operator as the lookahead and [b] not consumed: the loop tests the
    token object, not its code, against the multiplying operators. *)
Theorem term_stops_at_multiplying_operator
    (n : nat) (a b op : string) (rest : list Token) (d o : list string) :
  In op Tok.multiplyingOperator ->
  Replay.term (4 + n) (at_ (t_id a) (t_sym op :: t_id b :: rest) d o)
  = Ret tt (at_ (t_sym op) (t_id b :: rest) d o).
Proof.
  intros Hop. unfold Replay.term.
  change (4 + n) with (S (3 + n)). rewrite term_is_one_factor.
  apply factor_plain;
    destruct Hop as [<-|[<-|[<-|[]]]]; reflexivity.
Qed.

Lemma term_stops_at_multiplying_operator_witness :
  Replay.term 4 (at_ (t_id "a") [t_sym "*"; t_id "b"] [] [])
  = Ret tt (at_ (t_sym "*") [t_id "b"] [] []).
Proof.
  apply (term_stops_at_multiplying_operator 0 "a" "b" "*" [] [] []).
  simpl. left. reflexivity.
Defined.

(** C5 as stated fails: on the stream [not a ** b], whatever the budget,
    [factor] never returns having consumed the four tokens. *)
Lemma not_then_power_is_not_one_factor :
  ~ (exists (fuel : nat) (p' : Replay.Parser),
       Replay.factor fuel
         (start [t_sym "not"; t_id "a"; t_sym "**"; t_id "b"] [] [])
       = Ret tt p'
       /\ Parser.token p' = t_eof
       /\ pending (Parser.chario p') = []).
Proof.
  intros (fuel & p' & H & Ht & _).
  do 3 (destruct fuel as [|fuel]; [discriminate H|]).
  change (S (S (S fuel))) with (3 + fuel) in H.
  unfold start in H. cbn [hd tl] in H.
  rewrite factor_not in H by reflexivity.
  injection H as <-. discriminate Ht.
Qed.

(** [primary] does not return from the lookahead [not]: it takes none
    of its three branches and ends in the fatal-error routine. *)
Lemma primary_not_at_not (f : nat) (p q : Replay.Parser) :
  Replay.primary f p = Ret tt q -> (code (Parser.token p) =? Tok.NOT) = false.
Proof.
  intros H. destruct (code (Parser.token p) =? Tok.NOT) eqn:E; [|reflexivity].
  apply String.eqb_eq in E.
  destruct f as [|f]; [discriminate H|].
  unfold Replay.primary in H. cbn [Parser.primary] in H.
  unfold ifM, Parser.tok_in, Parser.tok_is in H. rewrite E in H.
  change (str_in Tok.NOT [Tok.numericalLiteral; Tok.stringLiteral])
    with false in H.
  change (Tok.NOT =? Tok.ID) with false in H.
  change (Tok.NOT =? Tok.PARENTHESIS_OPEN) with false in H.
  lazy beta iota in H.
  match type of H with
  | ?m = _ => assert (N : is_ret m = false) by apply fatalError_no_ret
  end.
  rewrite H in N. discriminate N.
Qed.

(** When [factor] returns: after [not], exactly when the primary that
    follows returns, and in the state that primary leaves; otherwise
    when the primary returns and, if [**] is then the lookahead, the
    primary after it returns too. *)
Lemma factor_returns (f : nat) (p q : Replay.Parser) :
  Replay.factor (S f) p = Ret tt q <->
  if code (Parser.token p) =? Tok.NOT
  then exists p1, Replay.advance p = Ret tt p1
                  /\ Replay.primary f p1 = Ret tt q
  else exists p1, Replay.primary f p = Ret tt p1
         /\ if code (Parser.token p1) =? Tok.SQUARE
            then exists p2, Replay.advance p1 = Ret tt p2
                            /\ Replay.primary f p2 = Ret tt q
            else q = p1.
Proof.
  assert (E : Replay.factor (S f) p
              = ifM (Parser.tok_is Tok.NOT)
                  (Replay.advance ;; Replay.primary f)
                  (Replay.primary f ;;
                   when_ (Parser.tok_is Tok.SQUARE)
                     (Replay.advance ;; Replay.primary f)) p) by reflexivity.
  rewrite E. clear E.
  generalize (Replay.primary f) Replay.advance. intros prim adv.
  unfold ifM, when_, ifM, Parser.tok_is.
  destruct (code (Parser.token p) =? Tok.NOT).
  - unfold bind. destruct (adv p) as [[] p1|e p1|p1].
    + split; [intros H; now exists p1
             | intros (p1' & E & H); now injection E as <-].
    + split; [discriminate | intros (p1' & E & _); discriminate E].
    + split; [discriminate | intros (p1' & E & _); discriminate E].
  - unfold bind at 1. destruct (prim p) as [[] p1|e p1|p1].
    + destruct (code (Parser.token p1) =? Tok.SQUARE) eqn:E1.
      * split.
        -- intros H. exists p1. split; [reflexivity|]. rewrite E1.
           unfold bind in H.
           destruct (adv p1) as [[] p2|e p2|p2] eqn:Ea;
             try discriminate H. now exists p2.
        -- intros (p1' & E & H). injection E as <-. rewrite E1 in H.
           destruct H as (p2 & Ea & H). unfold bind. now rewrite Ea.
      * split.
        -- intros H. exists p1. split; [reflexivity|]. rewrite E1.
           unfold ret in H. now injection H.
        -- intros (p1' & E & H). injection E as <-. rewrite E1 in H.
           now subst.
    + split; [discriminate | intros (p1' & E & _); discriminate E].
    + split; [discriminate | intros (p1' & E & _); discriminate E].
Qed.

(** Primaries: a literal, and an identifier that is not followed by an
    opening parenthesis. *)
Lemma is_primary_literal (n : nat) (v : string) (t : Token) :
  is_primary (S n) [mkToken Tok.numericalLiteral (Some v)] t.
Proof. intros rest d o. reflexivity. Qed.

Lemma is_primary_identifier (n : nat) (a : string) (t : Token) :
  (code t =? "(") = false ->
  is_primary (2 + n) [t_id a] t.
Proof. intros Ht rest d o. now apply primary_id. Qed.

(** C5, as the code has it.  A factor is either [not] and a primary, or
    a primary optionally followed by [**] and a primary: the [**] tail is
    only looked for when the factor does not start with [not].
    For every state: [factor] returns exactly when, the lookahead being
    [not], the primary after it returns (and then in the state that
    primary leaves, whatever the next token); or, the lookahead not being
    [not], the primary returns and either [**] does not follow, or the
    primary after [**] returns.
    For every token stream, with [ps] and [qs] any primaries:
    on [not ps t ...] factor consumes [not ps] and leaves [t] as the
    lookahead, also when [t] is [**]; on [ps ** qs t ...] it consumes
    [ps ** qs]; on [ps t ...] with [t] not [**] it consumes [ps]. *)
Theorem factor_shapes (f : nat) :
  (forall p q : Replay.Parser,
      Replay.factor (S f) p = Ret tt q <->
      if code (Parser.token p) =? Tok.NOT
      then exists p1, Replay.advance p = Ret tt p1
                      /\ Replay.primary f p1 = Ret tt q
      else exists p1, Replay.primary f p = Ret tt p1
             /\ if code (Parser.token p1) =? Tok.SQUARE
                then exists p2, Replay.advance p1 = Ret tt p2
                                /\ Replay.primary f p2 = Ret tt q
                else q = p1)
  /\ (forall ps t rest d o,
        is_primary f ps t ->
        Replay.factor (S f) (at_ (t_sym "not") (ps ++ t :: rest)%list d o)
        = Ret tt (at_ t rest d o))
  /\ (forall ps qs t rest d o,
        is_primary f ps (t_sym "**") ->
        is_primary f qs t ->
        Replay.factor (S f)
          (start (ps ++ t_sym "**" :: qs ++ t :: rest)%list d o)
        = Ret tt (at_ t rest d o))
  /\ (forall ps t rest d o,
        is_primary f ps t ->
        (code t =? "**") = false ->
        Replay.factor (S f) (start (ps ++ t :: rest)%list d o)
        = Ret tt (at_ t rest d o)).
Proof.
  split; [intros p q; apply factor_returns|].
  split; [|split].
  - intros ps t rest d o Hps. apply factor_returns.
    cbn [at_ Parser.token t_sym code]. change ("not" =? Tok.NOT) with true.
    cbv iota. exists (start (ps ++ t :: rest)%list d o).
    split; [apply advance_start | apply Hps].
  - intros ps qs t rest d o Hps Hqs. apply factor_returns.
    rewrite (primary_not_at_not f _ _ (Hps (qs ++ t :: rest)%list d o)).
    exists (at_ (t_sym "**") (qs ++ t :: rest)%list d o).
    split; [apply Hps|].
    cbn [at_ Parser.token t_sym code]. change ("**" =? Tok.SQUARE) with true.
    cbv iota. exists (start (qs ++ t :: rest)%list d o).
    split; [apply advance_start | apply Hqs].
  - intros ps t rest d o Hps Ht. apply factor_returns.
    rewrite (primary_not_at_not f _ _ (Hps rest d o)).
    exists (at_ t rest d o). split; [apply Hps|].
    cbn [at_ Parser.token]. change Tok.SQUARE with "**". now rewrite Ht.
Qed.

(** On [not ( a ) ** 2 ;] factor stops in front of [**]; on
    [( a ) ** 2 ;] it consumes the power. *)
Lemma factor_shapes_witness :
  Replay.factor 10
    (at_ (t_sym "not")
       [t_sym "("; t_id "a"; t_sym ")"; t_sym "**";
        mkToken "int" (Some "2"); t_sym ";"] [] [])
  = Ret tt (at_ (t_sym "**") [mkToken "int" (Some "2"); t_sym ";"] [] [])
  /\ Replay.factor 10
       (start [t_sym "("; t_id "a"; t_sym ")"; t_sym "**";
               mkToken "int" (Some "2"); t_sym ";"] [] [])
     = Ret tt (at_ (t_sym ";") [] [] []).
Proof.
  split.
  - apply (proj1 (proj2 (factor_shapes 9))
             [t_sym "("; t_id "a"; t_sym ")"] (t_sym "**")
             [mkToken "int" (Some "2"); t_sym ";"] [] []).
    intros rest d o. reflexivity.
  - apply (proj1 (proj2 (proj2 (factor_shapes 9)))
             [t_sym "("; t_id "a"; t_sym ")"] [mkToken "int" (Some "2")]
             (t_sym ";") [] [] []).
    + intros rest d o. reflexivity.
    + intros rest d o. reflexivity.
Defined.

End StreamProperties.

(** ** The Parser on a token stream: [accept] *)

Section AcceptProperties.

Import Replay.

Lemma accept_after_first_test (fuel : nat) (expected msg : string) (p : Replay.Parser) :
  (code (Parser.token p) =? Tok.NEWLINE)
  && str_in expected Parser.line_terminating_tokens = false ->
  Replay.accept fuel expected msg p
  = (Replay.ignore_newlines fuel ;;
     when_ (fun q => negb (code (Parser.token q) =? expected))
       (Replay.fatalError fuel
          (Parser.diagnostic Token_str expected (Parser.token p))) ;;
     Replay.advance ;;
     when_ (fun _ => str_in expected Parser.line_terminating_tokens)
       (Replay.ignore_newlines fuel)) p.
Proof.
  intros H. unfold Replay.accept, Parser.accept.
  erewrite bind_ret_l with (a := tt) (s' := p); [reflexivity|].
  unfold when_, ifM. now rewrite H.
Qed.

Lemma accept_mismatch_after_skip (fuel : nat) (expected msg : string)
    (p p1 : Replay.Parser) :
  (code (Parser.token p) =? Tok.NEWLINE)
  && str_in expected Parser.line_terminating_tokens = false ->
  Replay.ignore_newlines fuel p = Ret tt p1 ->
  (code (Parser.token p1) =? expected) = false ->
  Replay.accept fuel expected msg p
  = Replay.fatalError fuel
      (Parser.diagnostic Token_str expected (Parser.token p)) p1.
Proof.
  intros H Hi Hc. rewrite accept_after_first_test by assumption.
  erewrite bind_ret_l by exact Hi.
  rewrite bind_no_ret; unfold when_, ifM; rewrite Hc; cbn [negb];
    [reflexivity | apply fatalError_no_ret].
Qed.

Lemma accept_match_after_skip (fuel : nat) (expected msg : string)
    (p p1 : Replay.Parser) :
  (code (Parser.token p) =? Tok.NEWLINE)
  && str_in expected Parser.line_terminating_tokens = false ->
  Replay.ignore_newlines fuel p = Ret tt p1 ->
  (code (Parser.token p1) =? expected) = true ->
  Replay.accept fuel expected msg p
  = (Replay.advance ;;
     when_ (fun _ => str_in expected Parser.line_terminating_tokens)
       (Replay.ignore_newlines fuel)) p1.
Proof.
  intros H Hi Hc. rewrite accept_after_first_test by assumption.
  erewrite bind_ret_l by exact Hi.
  erewrite bind_ret_l with (a := tt) (s' := p1); [reflexivity|].
  unfold when_, ifM. now rewrite Hc.
Qed.

(** C7.  The newline rule of [accept] does not do what the claim and
    the comment above it say.  With a newline token as the lookahead and
    one of [is], [loop], [;] expected, [accept] is the fatal-error
    routine run on the state as it stands (the newline is still the
    lookahead and is what the diagnostic describes), and it never returns
    normally.  But the fatal-error routine discards before it raises:
    - when no newline token lies ahead, [accept] does not raise: for
      every budget it hangs in the discard, the diagnostic written;
    - when a newline token lies ahead, it raises only after the newline
      and the whole next line [pre] were discarded: the tokens the rule
      is meant to preserve are the ones the printed line lists.
    For any other expected category, the newline tokens in front are
    skipped first and the comparison is made with the first token that
    is not a newline: on a match the lookahead moves past that token, on
    a mismatch the fatal-error routine runs from it. *)
Theorem accept_newline_rule :
  (forall (fuel : nat) (expected msg : string) (p : Replay.Parser),
      code (Parser.token p) = Tok.NEWLINE ->
      str_in expected [Tok.IS; Tok.LOOP; Tok.SEMICOLON] = true ->
      Replay.accept fuel expected msg p
      = Replay.fatalError fuel
          (Parser.diagnostic Token_str expected (Parser.token p)) p
      /\ is_ret (Replay.accept fuel expected msg p) = false)
  /\ (forall (fuel : nat) (expected msg : string) nl s d o,
      is_newline nl = true ->
      str_in expected [Tok.IS; Tok.LOOP; Tok.SEMICOLON] = true ->
      forallb (fun t => negb (is_newline t)) s = true ->
      is_timeout (Replay.accept fuel expected msg (at_ nl s d o)) = true
      /\ is_raise (Replay.accept fuel expected msg (at_ nl s d o)) = false
      /\ diags (final (Replay.accept fuel expected msg (at_ nl s d o)))
         = (d ++ [Parser.diagnostic Token_str expected nl])%list)
  /\ (forall (fuel : nat) (expected msg : string) nl pre nl' post d o,
      is_newline nl = true ->
      str_in expected [Tok.IS; Tok.LOOP; Tok.SEMICOLON] = true ->
      forallb (fun t => negb (is_newline t)) pre = true ->
      is_newline nl' = true ->
      length pre + length post < fuel ->
      Replay.accept fuel expected msg (at_ nl (pre ++ nl' :: post)%list d o)
      = Raise ("Fatal error: " ++ Parser.diagnostic Token_str expected nl)
          (start (drop_newlines post)
             (d ++ [Parser.diagnostic Token_str expected nl])%list
             (o ++ [trailing (nl :: pre)])%list))
  /\ (forall (fuel : nat) (expected msg : string) nls t rest d o,
      str_in expected [Tok.IS; Tok.LOOP; Tok.SEMICOLON] = false ->
      forallb is_newline nls = true ->
      is_newline t = false ->
      length nls <= fuel ->
      Replay.accept fuel expected msg (start (nls ++ t :: rest)%list d o)
      = if code t =? expected
        then Ret tt (start rest d o)
        else Replay.fatalError fuel
               (Parser.diagnostic Token_str expected (hd t nls))
               (at_ t rest d o)).
Proof.
  split; [|split; [|split]].
  - intros fuel expected msg p Hn He.
    assert (E := accept_newline_is_fatal _ GetNextToken PrintErrorMessage
                   Token_str fuel expected msg p Hn He).
    split; [exact E|].
    unfold Replay.accept. rewrite E. apply fatalError_no_ret.
  - intros fuel expected msg nl s d o Hnl He Hs.
    assert (E : Replay.accept fuel expected msg (at_ nl s d o)
                = Replay.fatalError fuel
                    (Parser.diagnostic Token_str expected nl) (at_ nl s d o)).
    { unfold Replay.accept.
      rewrite accept_newline_is_fatal;
        [reflexivity | now apply String.eqb_eq | assumption]. }
    rewrite E.
    assert (Ht := fatalError_hangs fuel
                    (Parser.diagnostic Token_str expected nl) nl s d o Hs).
    split; [exact Ht|]. split.
    + now destruct (Replay.fatalError fuel _ (at_ nl s d o)).
    + apply fatalError_diags.
  - intros fuel expected msg nl pre nl' post d o Hnl He Hp Hnl' Hf.
    unfold Replay.accept.
    rewrite accept_newline_is_fatal;
      [| now apply String.eqb_eq | assumption].
    now apply fatalError_raises.
  - intros fuel expected msg nls t rest d o He Hn Ht Hf.
    assert (H1 : (code (Parser.token (start (nls ++ t :: rest)%list d o))
                  =? Tok.NEWLINE)
                 && str_in expected Parser.line_terminating_tokens = false).
    { change Parser.line_terminating_tokens
        with [Tok.IS; Tok.LOOP; Tok.SEMICOLON].
      rewrite He. apply andb_false_r. }
    assert (Hi := ignore_newlines_run nls fuel t rest d o Hn Ht Hf).
    assert (Hhd : Parser.token (start (nls ++ t :: rest)%list d o) = hd t nls)
      by now destruct nls.
    destruct (code t =? expected) eqn:Hc.
    + rewrite (accept_match_after_skip fuel expected msg _ _ H1 Hi Hc).
      erewrite bind_ret_l by apply advance_start.
      unfold when_, ifM.
      change Parser.line_terminating_tokens
        with [Tok.IS; Tok.LOOP; Tok.SEMICOLON].
      now rewrite He.
    + rewrite (accept_mismatch_after_skip fuel expected msg _ _ H1 Hi Hc).
      now rewrite Hhd.
Qed.

(** The header [procedure Foo] ends its line early and [begin] follows:
    expecting [is] at the newline, [accept] hangs whatever the budget.
    With a further line, it raises after discarding [begin null ;]. *)
Lemma accept_newline_rule_witness :
  (forall fuel : nat,
      is_timeout (Replay.accept fuel "is" "'is' expected"
                    (at_ t_newline [t_sym "begin"] [] [])) = true
      /\ is_raise (Replay.accept fuel "is" "'is' expected"
                     (at_ t_newline [t_sym "begin"] [] [])) = false)
  /\ Replay.accept 5 "is" "'is' expected"
       (at_ t_newline
          [t_sym "begin"; t_sym "null"; t_sym ";"; t_newline; t_sym "end"]
          [] [])
     = Raise ("Fatal error: expected [is] but " ++ LF ++ " was detected")
         (at_ (t_sym "end") []
            ["expected [is] but " ++ LF ++ " was detected"]
            ["trailing tokens: " ++ LF ++ " begin null ; were discarded"])
  /\ Replay.accept 2 "id" "identifier expected"
       (at_ t_newline [t_newline; t_id "b"; t_sym ";"] [] [])
     = Ret tt (at_ (t_sym ";") [] [] []).
Proof.
  split; [|split].
  - intros fuel.
    destruct (proj1 (proj2 accept_newline_rule) fuel "is" "'is' expected"
                t_newline [t_sym "begin"] [] [] eq_refl eq_refl eq_refl)
      as (Ht & Hr & _).
    split; assumption.
  - apply (proj1 (proj2 (proj2 accept_newline_rule)) 5 "is" "'is' expected"
             t_newline [t_sym "begin"; t_sym "null"; t_sym ";"] t_newline
             [t_sym "end"] [] []);
      first [reflexivity | apply le_n].
  - apply (proj2 (proj2 (proj2 accept_newline_rule)) 2 "id"
             "identifier expected"
             [t_newline; t_newline] (t_id "b") [t_sym ";"] [] []);
      reflexivity.
Defined.

Lemma accept_tail_keeps_diags (fuel : nat) (expected : string) :
  keeps diags
    (Replay.advance ;;
     when_ (fun _ => str_in expected Parser.line_terminating_tokens)
       (Replay.ignore_newlines fuel)).
Proof.
  apply keeps_bind; [apply advance_keeps_diags | intros _].
  apply keeps_ifM; [apply ignore_newlines_keeps_diags | apply keeps_ret].
Qed.

Lemma accept_diags (fuel : nat) (expected msg : string) (p : Replay.Parser) :
  diags (final (Replay.accept fuel expected msg p)) = diags p
  \/ diags (final (Replay.accept fuel expected msg p))
     = (diags p ++ [Parser.diagnostic Token_str expected (Parser.token p)])%list.
Proof.
  destruct ((code (Parser.token p) =? Tok.NEWLINE)
            && str_in expected Parser.line_terminating_tokens) eqn:H1.
  - right. apply andb_true_iff in H1. destruct H1 as [Hn He].
    apply String.eqb_eq in Hn. unfold Replay.accept.
    rewrite accept_newline_is_fatal by assumption. apply fatalError_diags.
  - pose proof (ignore_newlines_keeps_diags fuel p) as Hk.
    destruct (Replay.ignore_newlines fuel p) as [[] p1|e p1|p1] eqn:Hi;
      cbn [final] in Hk.
    + destruct (code (Parser.token p1) =? expected) eqn:Hc.
      * left. rewrite (accept_match_after_skip fuel expected msg _ _ H1 Hi Hc).
        now rewrite accept_tail_keeps_diags.
      * right. rewrite (accept_mismatch_after_skip fuel expected msg _ _ H1 Hi Hc).
        now rewrite fatalError_diags, Hk.
    + left. rewrite accept_after_first_test by assumption.
      erewrite bind_raise_l by exact Hi. exact Hk.
    + left. rewrite accept_after_first_test by assumption.
      unfold bind. rewrite Hi. exact Hk.
Qed.

Lemma accept_mismatch_diags (fuel : nat) (expected msg : string)
    (p : Replay.Parser) :
  mismatch expected p = true ->
  diags (final (Replay.accept fuel expected msg p))
  = (diags p ++ [Parser.diagnostic Token_str expected (Parser.token p)])%list.
Proof.
  unfold mismatch. destruct (code (Parser.token p) =? Tok.NEWLINE) eqn:Hn.
  - intros He. apply String.eqb_eq in Hn. unfold Replay.accept.
    rewrite accept_newline_is_fatal by assumption. apply fatalError_diags.
  - intros Hc. apply negb_true_iff in Hc.
    assert (Hi : Replay.ignore_newlines fuel p = Ret tt p)
      by (apply while_false; exact Hn).
    rewrite (accept_mismatch_after_skip fuel expected msg p p); try assumption.
    + apply fatalError_diags.
    + now rewrite Hn.
Qed.

(** C10.  The [error_message] argument of [accept] has no effect: two
    calls that differ only in it have the same outcome, over any scanner.
    What [accept] writes to the sink is nothing or exactly the one
    diagnostic "expected [<expected>] but <the lookahead> was detected",
    and on a mismatch it is that diagnostic. *)
Theorem accept_message_has_no_effect :
  (forall (W : Type) (G : W -> outcome W Token) (Pr : string -> W -> W)
          (Ts : Token -> string) (fuel : nat) (expected m1 m2 : string)
          (p : Parser.Parser W),
      Parser.accept G Pr Ts fuel expected m1 p
      = Parser.accept G Pr Ts fuel expected m2 p)
  /\ (forall (fuel : nat) (expected msg : string) (p : Replay.Parser),
        diags (final (Replay.accept fuel expected msg p)) = diags p
        \/ diags (final (Replay.accept fuel expected msg p))
           = (diags p
              ++ [("expected [" ++ expected ++ "] but "
                   ++ Token_str (Parser.token p) ++ " was detected")%string])%list)
  /\ (forall (fuel : nat) (expected msg : string) (p : Replay.Parser),
        mismatch expected p = true ->
        diags (final (Replay.accept fuel expected msg p))
        = (diags p
           ++ [("expected [" ++ expected ++ "] but "
                ++ Token_str (Parser.token p) ++ " was detected")%string])%list).
Proof.
  split; [|split].
  - intros. apply accept_message_dead.
  - apply accept_diags.
  - apply accept_mismatch_diags.
Qed.

Lemma accept_message_has_no_effect_witness :
  diags (final (Replay.accept 5 ";" "semicolon expected"
                  (at_ (t_id "x") [t_newline; t_id "y"] [] [])))
  = ["expected [;] but id(x) was detected"].
Proof.
  exact (proj2 (proj2 accept_message_has_no_effect) 5 ";" "semicolon expected"
           (at_ (t_id "x") [t_newline; t_id "y"] [] []) eq_refl).
Defined.

End AcceptProperties.

(** ** Whole sessions, with the Scanner of the repository *)

Section SessionProperties.

Local Abbreviation G := Real.GetNextToken.
Local Abbreviation Pr := PrintErrorMessage.

(** C8.  [procedure Foo is begin null; end Foo;] is accepted with no
    diagnostic: with any budget of three steps or more the session
    completes, the whole input consumed, nothing in the sink and nothing
    printed. *)
Theorem minimal_procedure_is_accepted :
  forall n : nat,
    Real.run (3 + n) "procedure Foo is begin null; end Foo;"
    = Parser.Completed (Parser.mkParser (mkChario [] []) t_eof []).
Proof. intros [|n]; vm_compute; reflexivity. Qed.

(** *** Lexical errors *)

Lemma GetNextToken_unexpected (rw : list string) (ch : ascii)
    (rest : list ascii) (errs : list string) :
  Real.begins_no_token ch rest = true ->
  Scanner.GetNextToken rw (mkChario (ch :: rest) errs)
  = Raise "Unexpected symbol"
      (mkChario rest
         (errs ++ [("Unexpected symbol '" ++ String ch "" ++ "'")%string])%list).
Proof.
  unfold Real.begins_no_token. intros H.
  repeat (apply andb_true_iff in H; destruct H as [H ?]).
  repeat match goal with
         | E : negb _ = true |- _ => apply negb_true_iff in E
         end.
  rewrite GetNextToken_starts by assumption. cbv zeta.
  repeat match goal with
         | E : _ = false |- _ => rewrite E
         end.
  unfold Scanner.OperatorToken. rewrite Get_cons.
  change (PeekNextChar (mkChario rest errs))
    with (PeekNextChar (mkChario rest [])).
  repeat match goal with
         | E : _ = false |- _ => rewrite E
         end.
  reflexivity.
Qed.

(** C3 as stated fails: in this program the character [@] begins no
    token; the lexical error is reported, the handler of [statement]
    catches it and prints its recovery message, and the parse goes on to
    consume [Foo ;] and completes: the session does not abort. *)
Lemma lexical_error_does_not_abort :
  Real.run 12 "procedure Foo is begin if x then null; end @ Foo;"
  = Parser.Completed
      (Parser.mkParser (mkChario [] ["Unexpected symbol '@'"]) t_eof
         ["continue parsing next statement" ++ LF])
  /\ ~ (exists e c out,
          Real.run 12 "procedure Foo is begin if x then null; end @ Foo;"
          = Parser.Aborted e c out).
Proof.
  split; [vm_compute; reflexivity|].
  intros (e & c & out & H). vm_compute in H. discriminate H.
Qed.

(** C3, as the code has it.  A character that begins no token is
    consumed, reported once to the sink and makes [GetNextToken] raise a
    [RuntimeError].  That is the exception the Parser's handlers catch:
    none leaves [statement] or [parse], so parsing continues after a
    lexical error, and the session aborts only when the error meets the
    constructor's request for the first token. *)
Theorem lexical_error_is_caught_like_a_syntax_error :
  (forall (ch : ascii) (rest : list ascii) (errs : list string),
      Real.begins_no_token ch rest = true ->
      Real.GetNextToken (mkChario (ch :: rest) errs)
      = Raise "Unexpected symbol"
          (mkChario rest
             (errs ++ [("Unexpected symbol '" ++ String ch "" ++ "'")%string])%list))
  /\ (forall (fuel : nat) (p : Real.Parser),
        is_raise (Parser.statement G Pr Token_str fuel p) = false
        /\ is_raise (Parser.parse G Pr Token_str fuel p) = false)
  /\ (forall (fuel : nat) (text : string) e c out,
        Real.run fuel text = Parser.Aborted e c out ->
        Real.GetNextToken (chario_of text) = Raise e c /\ out = []).
Proof.
  split; [|split].
  - intros ch rest errs H. now apply GetNextToken_unexpected.
  - intros fuel p. split.
    + apply statement_never_raises.
    + apply subprogramBody_never_raises.
  - intros fuel text e c out H.
    unfold Real.run in H.
    apply abort_only_in_init in H. destruct H as [H ->]. split; [|reflexivity].
    unfold Parser.init in H.
    destruct (Real.GetNextToken (chario_of text)); try discriminate H.
    now injection H as -> ->.
Qed.

Lemma lexical_error_is_caught_like_a_syntax_error_witness :
  Real.GetNextToken (chario_of "@ procedure")
  = Raise "Unexpected symbol"
      (mkChario (list_ascii_of_string " procedure") ["Unexpected symbol '@'"])
  /\ (Real.GetNextToken (chario_of "@ procedure")
      = Raise "Unexpected symbol"
          (mkChario (list_ascii_of_string " procedure") ["Unexpected symbol '@'"])
      /\ @nil string = []).
Proof.
  split.
  - exact (proj1 lexical_error_is_caught_like_a_syntax_error "@"%char
             (list_ascii_of_string " procedure") [] eq_refl).
  - exact (proj2 (proj2 lexical_error_is_caught_like_a_syntax_error) 5
             "@ procedure" "Unexpected symbol"
             (mkChario (list_ascii_of_string " procedure")
                ["Unexpected symbol '@'"])
             [] eq_refl).
Defined.

(** *** The malformed declaration *)

Lemma real_discard_loop_at_eof : forall (fuel : nat) msg errs t out,
  (code t =? Tok.NEWLINE) = false ->
  is_timeout (Parser.discard_loop G Token_str fuel msg
                (Parser.mkParser (mkChario [] errs) t out)) = true.
Proof.
  induction fuel as [|fuel IH]; intros msg errs t out Ht;
    cbn [Parser.discard_loop Parser.token]; rewrite Ht; cbn [negb].
  - reflexivity.
  - erewrite bind_ret_l by reflexivity. now apply IH.
Qed.

(** The program of C6, written on one line ([sep] a space) or with each
    phase on a line of its own ([sep] a newline). *)
Lemma discard_swallows_the_body (sep : string) (errs out : list string)
    (fuel : nat) :
  sep = " " \/ sep = LF ->
  is_timeout
    (Parser.discard_tokens G Token_str fuel
       (Real.at_ (t_sym ";") (sep ++ "begin null;" ++ sep ++ "end Foo;")
          errs out)) = true.
Proof.
  intros [-> | ->]; unfold Parser.discard_tokens;
    (erewrite bind_ret_l by (vm_compute; reflexivity));
    apply bind_timeout_l;
    do 6 (destruct fuel as [|fuel]; [reflexivity|];
          erewrite discard_loop_step by (vm_compute; reflexivity));
    cbn [Parser.stdout Parser.token];
    now apply real_discard_loop_at_eof.
Qed.

Lemma numberOrObjectDeclaration_hangs (sep : string) (fuel : nat) :
  sep = " " \/ sep = LF ->
  is_timeout
    (Parser.numberOrObjectDeclaration G Pr Token_str fuel
       (Real.at_ (t_id "X")
          (" : ;" ++ sep ++ "begin null;" ++ sep ++ "end Foo;") [] []))
  = true.
Proof.
  intros Hsep. unfold Parser.numberOrObjectDeclaration.
  erewrite bind_ret_l by (destruct fuel; vm_compute; reflexivity).
  erewrite bind_ret_l by (destruct fuel; vm_compute; reflexivity).
  rewrite ifM_false by reflexivity.
  unfold Parser.objectDeclaration. apply bind_timeout_l.
  unfold Parser.typeDefinition.
  rewrite !ifM_false by reflexivity.
  unfold Parser.fatalError.
  erewrite bind_ret_l by reflexivity.
  apply bind_timeout_l.
  now apply (discard_swallows_the_body sep _ _ fuel).
Qed.

Lemma declarativePart_hangs (sep : string) (fuel : nat) :
  sep = " " \/ sep = LF ->
  is_timeout
    (Parser.declarativePart G Pr Token_str fuel
       (Real.at_ (t_id "X")
          (" : ;" ++ sep ++ "begin null;" ++ sep ++ "end Foo;") [] []))
  = true.
Proof.
  intros Hsep.
  destruct Hsep as [-> | ->];
    (destruct fuel as [|[|[|fuel]]]; try reflexivity;
     rewrite declarativePart_S, while_true by reflexivity;
     apply bind_timeout_l, try_timeout;
     rewrite basicDeclaration_S, ifM_true by reflexivity;
     apply numberOrObjectDeclaration_hangs; auto).
Qed.

Lemma subprogramBody_hangs (sep : string) (fuel : nat) :
  sep = " " \/ sep = LF ->
  is_timeout
    (Parser.subprogramBody G Pr Token_str fuel
       (Real.at_ (t_sym "procedure")
          (" Foo is" ++ sep ++ "X : ;" ++ sep ++ "begin null;" ++ sep
           ++ "end Foo;") [] []))
  = true.
Proof.
  intros Hsep. destruct fuel as [|fuel]; [reflexivity|].
  rewrite subprogramBody_S.
  destruct Hsep as [-> | ->];
    (erewrite bind_ret_l by (destruct fuel; vm_compute; reflexivity));
    apply bind_timeout_l, try_timeout;
    [apply (declarativePart_hangs " ") | apply (declarativePart_hangs LF)];
    auto.
Qed.

Lemma run_malformed_declaration (sep : string) (fuel : nat) :
  sep = " " \/ sep = LF ->
  exists c out,
    Real.run fuel
      ("procedure Foo is" ++ sep ++ "X : ;" ++ sep ++ "begin null;" ++ sep
       ++ "end Foo;")
    = Parser.Unfinished c out.
Proof.
  intros Hsep. unfold Real.run, Parser.run.
  assert (Hi : Parser.init Real.GetNextToken
            (chario_of ("procedure Foo is" ++ sep ++ "X : ;" ++ sep
                        ++ "begin null;" ++ sep ++ "end Foo;"))
          = Ret (Real.at_ (t_sym "procedure")
                   (" Foo is" ++ sep ++ "X : ;" ++ sep ++ "begin null;" ++ sep
                    ++ "end Foo;") [] [])
                (mkChario
                   (list_ascii_of_string
                      (" Foo is" ++ sep ++ "X : ;" ++ sep ++ "begin null;"
                       ++ sep ++ "end Foo;")) []))
    by (destruct Hsep as [-> | ->]; reflexivity).
  rewrite Hi.
  pose proof (subprogramBody_hangs sep fuel Hsep) as H. unfold Parser.parse.
  destruct (Parser.subprogramBody _ _ _ fuel _) as [| |p']; try discriminate H.
  now eexists _, _.
Qed.

(** C6.  On [procedure Foo is X : ; begin null; end Foo;] recognition
    does not succeed: whatever the budget, the session does not finish,
    whether the program is written on one line or with the declaration,
    [begin null;] and [end Foo;] each on a line of its own.  The one
    diagnostic for the declaration is reported, then the discard consumes
    [begin null; end Foo;] (it only stops at a newline token, and the
    Scanner yields none) and waits at the end of the input; no recovery
    message is printed and no phase resumes. *)
Theorem malformed_declaration_hangs :
  (forall fuel : nat,
      exists c out,
        Real.run fuel "procedure Foo is X : ; begin null; end Foo;"
        = Parser.Unfinished c out)
  /\ (forall fuel : nat,
        exists c out,
          Real.run fuel
            ("procedure Foo is" ++ LF ++ "X : ;" ++ LF ++ "begin null;" ++ LF
             ++ "end Foo;")
          = Parser.Unfinished c out)
  /\ Real.run 20 "procedure Foo is X : ; begin null; end Foo;"
     = Parser.Unfinished
         (mkChario []
            ["expected either an opening parenthesis, an array, a range, or an identifier but ; was detected"])
         []
  /\ Real.run 20
       ("procedure Foo is" ++ LF ++ "X : ;" ++ LF ++ "begin null;" ++ LF
        ++ "end Foo;")
     = Parser.Unfinished
         (mkChario []
            ["expected either an opening parenthesis, an array, a range, or an identifier but ; was detected"])
         [].
Proof.
  split; [|split; [|split]].
  - intros fuel. apply (run_malformed_declaration " "). now left.
  - intros fuel. apply (run_malformed_declaration LF). now right.
  - vm_compute. reflexivity.
  - vm_compute. reflexivity.
Qed.

(** What the phases and the discard are written for: over a scanner that
    does yield newline tokens, with the declaration on a line of its own,
    the one diagnostic is reported, the rest of the line is discarded,
    the declarative part resumes and [begin null; end Foo;] is
    recognized. *)
Example phase_recovery_over_newline_tokens :
  Replay.run 8
    (Replay.mkTape
       [t_sym "procedure"; t_id "Foo"; t_sym "is"; t_newline;
        t_id "X"; t_sym ":"; t_sym ";"; t_newline;
        t_sym "begin"; t_sym "null"; t_sym ";"; t_newline;
        t_sym "end"; t_id "Foo"; t_sym ";"] [])
  = Parser.Completed
      (Replay.at_ t_eof []
         ["expected either an opening parenthesis, an array, a range, or an identifier but ; was detected"]
         ["trailing tokens: ; were discarded";
          "continue parsing basic declaration of declarative part" ++ LF]).
Proof. vm_compute. reflexivity. Qed.

(** The effect of the loop test of [term] on a program: a product on the
    right of an assignment is rejected at the operator. *)
Example product_is_rejected :
  Real.run 20 "procedure P is begin x := a * b; end P;"
  = Parser.Unfinished
      (mkChario [] ["expected [;] but * was detected"]) [].
Proof. vm_compute. reflexivity. Qed.

End SessionProperties.

(** * Further properties of the Scanner *)

Lemma digit_not_alpha (ch : ascii) :
  char_isdigit ch = true -> char_isalpha ch = false.
Proof. all_chars ch. Qed.

Lemma digit_not_ignored (ch : ascii) :
  char_isdigit ch = true -> ignorable ch = false.
Proof. all_chars ch. Qed.

Lemma digit_terminated_peek (tail : list ascii) (errs : list string) :
  digit_terminated tail = true ->
  isdigit (PeekNextChar (mkChario tail errs)) = false.
Proof.
  destruct tail as [|d tail]; [reflexivity|].
  cbn [digit_terminated]. rewrite Peek_cons. unfold isdigit. cbn [str_all].
  intros H. apply negb_true_iff in H. now rewrite H.
Qed.

Lemma IntegerToken_loop_munch : forall (ds acc : string) (n : nat) tail errs,
  str_all char_isdigit ds = true ->
  digit_terminated tail = true ->
  String.length ds <= n ->
  Scanner.IntegerToken_loop n
    (mkChario (list_ascii_of_string ds ++ tail)%list errs) acc
  = (acc ++ ds, mkChario tail errs).
Proof.
  induction ds as [|a ds IH]; intros acc n tail errs Hd Ht Hn.
  - rewrite append_nil_r. cbn [list_ascii_of_string app].
    destruct n as [|n]; [reflexivity|].
    cbn [Scanner.IntegerToken_loop].
    now rewrite (digit_terminated_peek _ _ Ht).
  - destruct n as [|n]; [simpl in Hn; lia|].
    cbn [list_ascii_of_string app Scanner.IntegerToken_loop].
    rewrite Peek_cons, Get_cons.
    cbn [str_all] in Hd. apply andb_true_iff in Hd. destruct Hd as [Ha Hd].
    unfold isdigit. cbn [str_all]. rewrite Ha. cbn [andb].
    rewrite IH; [| assumption | assumption | simpl in Hn; lia].
    now rewrite append_assoc.
Qed.

(** X1.  Integer literals: when the input starts with a digit, continues
    with digits and is then followed by a character that is not a digit
    (or by the end of the input), [GetNextToken] returns one
    integer-literal token carrying exactly the digit string, and leaves
    the cursor on what follows: a letter right after the digits starts
    the next token. *)
Theorem integer_literal_munch (rw : list string) (a : ascii) (ds : string)
    (tail : list ascii) (errs : list string) :
  str_all char_isdigit (String a ds) = true ->
  digit_terminated tail = true ->
  Scanner.GetNextToken rw
    (mkChario (list_ascii_of_string (String a ds) ++ tail)%list errs)
  = Ret (mkToken "int" (Some (String a ds))) (mkChario tail errs).
Proof.
  intros Hd Ht. pose proof Hd as Hd'.
  cbn [str_all] in Hd'. apply andb_true_iff in Hd'. destruct Hd' as [Ha _].
  cbn [list_ascii_of_string app].
  rewrite (GetNextToken_starts _ _ _ _ (digit_not_ignored _ Ha)).
  cbv zeta. rewrite (digit_not_alpha _ Ha), Ha.
  unfold Scanner.IntegerToken.
  change (a :: (list_ascii_of_string ds ++ tail)%list)
    with (list_ascii_of_string (String a ds) ++ tail)%list.
  rewrite (IntegerToken_loop_munch (String a ds) "" _ _ _ Hd Ht).
  - reflexivity.
  - cbn [source]. rewrite length_app, length_list_ascii_of_string. lia.
Qed.

Lemma integer_literal_munch_witness :
  Scanner.GetNextToken reservedWords (chario_of "1234x")
  = Ret (mkToken "int" (Some "1234")) (mkChario ["x"%char] []).
Proof.
  exact (integer_literal_munch reservedWords "1"%char "234" ["x"%char] []
           eq_refl eq_refl).
Defined.

(** *** Operators *)

Lemma possiblyDouble_cases (ch : ascii) :
  str_in (String ch "") Scanner.possiblyDoubleCharOperators = true ->
  ch = "/"%char \/ ch = ":"%char \/ ch = ">"%char \/ ch = "<"%char
  \/ ch = "*"%char.
Proof.
  intros H. apply str_in_In in H. simpl in H.
  destruct H as [H|[H|[H|[H|[H|[]]]]]]; injection H as <-; auto.
Qed.

Lemma double_or_single (ch nxt : ascii) (rest : list ascii) (errs : list string) :
  str_in (String ch "") Scanner.possiblyDoubleCharOperators = true ->
  Scanner.OperatorToken (mkChario (ch :: nxt :: rest) errs)
  = if makes_double ch nxt
    then Ret (mkToken (String ch (String nxt "")) None) (mkChario rest errs)
    else Ret (mkToken (String ch "") None) (mkChario (nxt :: rest) errs).
Proof.
  intros H. apply possiblyDouble_cases in H.
  destruct H as [->|[->|[->|[->| ->]]]]; all_chars nxt.
Qed.

Lemma single_at_end (ch : ascii) (errs : list string) :
  str_in (String ch "") Scanner.possiblyDoubleCharOperators = true ->
  Scanner.OperatorToken (mkChario [ch] errs)
  = Ret (mkToken (String ch "") None) (mkChario [] errs).
Proof.
  intros H. apply possiblyDouble_cases in H.
  destruct H as [->|[->|[->|[->| ->]]]]; reflexivity.
Qed.

Lemma possiblyDouble_dispatch (ch : ascii) :
  str_in (String ch "") Scanner.possiblyDoubleCharOperators = true ->
  ignorable ch = false /\ char_isalpha ch = false /\ char_isdigit ch = false.
Proof.
  intros H. apply possiblyDouble_cases in H.
  destruct H as [->|[->|[->|[->| ->]]]]; repeat split.
Qed.

(** X2.  Double-character operators: for a first character among
    [/ : > < *], [GetNextToken] returns the two-character token, and
    consumes both characters, exactly when the pair is one of
    [/= := <= >= **]; with any other next character, or at the end of
    the input, it returns the one-character token and consumes that
    character alone. *)
Theorem double_character_operators (rw : list string) (ch : ascii)
    (errs : list string) :
  str_in (String ch "") ["/"; ":"; ">"; "<"; "*"] = true ->
  (forall nxt rest,
      Scanner.GetNextToken rw (mkChario (ch :: nxt :: rest) errs)
      = if makes_double ch nxt
        then Ret (mkToken (String ch (String nxt "")) None)
                 (mkChario rest errs)
        else Ret (mkToken (String ch "") None)
                 (mkChario (nxt :: rest) errs))
  /\ Scanner.GetNextToken rw (mkChario [ch] errs)
     = Ret (mkToken (String ch "") None) (mkChario [] errs).
Proof.
  intros H. destruct (possiblyDouble_dispatch ch H) as (Hi & Ha & Hd).
  split; [intros nxt rest|];
    rewrite (GetNextToken_starts _ _ _ _ Hi); cbv zeta; rewrite Ha, Hd.
  - now apply double_or_single.
  - now apply single_at_end.
Qed.

Lemma double_character_operators_witness :
  Scanner.GetNextToken reservedWords (chario_of ":=1")
  = Ret (mkToken ":=" None) (mkChario ["1"%char] [])
  /\ Scanner.GetNextToken reservedWords (chario_of ": x")
     = Ret (mkToken ":" None) (mkChario [" "%char; "x"%char] []).
Proof.
  split.
  - exact (proj1 (double_character_operators reservedWords ":"%char []
                    eq_refl) "="%char ["1"%char]).
  - exact (proj1 (double_character_operators reservedWords ":"%char []
                    eq_refl) " "%char ["x"%char]).
Defined.

(** *** Blank input *)

Lemma GetNextToken_skips_prefix (rw : list string) :
  forall (ws src : list ascii) (errs : list string),
    forallb ignorable ws = true ->
    Scanner.GetNextToken rw (mkChario (ws ++ src)%list errs)
    = Scanner.GetNextToken rw (mkChario src errs).
Proof.
  induction ws as [|w ws IH]; intros src errs H; [reflexivity|].
  cbn [forallb] in H. apply andb_true_iff in H. destruct H as [Hw H].
  cbn [app]. rewrite GetNextToken_skips by exact Hw. now apply IH.
Qed.

(** X3.  Blank input: any run of skipped characters in front of the
    input changes nothing to the outcome of [GetNextToken]; on an input
    of skipped characters only (the empty input included) it returns the
    EOF token with the cursor at the end and the sink untouched, and from
    there every further call returns the EOF token again. *)
Theorem blank_input (rw : list string) (ws : list ascii) (errs : list string) :
  forallb ignorable ws = true ->
  (forall src,
      Scanner.GetNextToken rw (mkChario (ws ++ src)%list errs)
      = Scanner.GetNextToken rw (mkChario src errs))
  /\ Scanner.GetNextToken rw (mkChario ws errs)
     = Ret (mkToken "EOF" None) (mkChario [] errs)
  /\ Scanner.GetNextToken rw (mkChario [] errs)
     = Ret (mkToken "EOF" None) (mkChario [] errs).
Proof.
  intros H. split; [|split].
  - intros src. now apply GetNextToken_skips_prefix.
  - rewrite <- (app_nil_r ws). now rewrite GetNextToken_skips_prefix.
  - reflexivity.
Qed.

Lemma blank_input_witness :
  Scanner.GetNextToken reservedWords
    (mkChario [" "%char; ascii_of_nat 10; ascii_of_nat 9] [])
  = Ret (mkToken "EOF" None) (mkChario [] []).
Proof.
  exact (proj1 (proj2 (blank_input reservedWords
                         [" "%char; ascii_of_nat 10; ascii_of_nat 9] []
                         eq_refl))).
Defined.

(** *** The shape of every token *)

Lemma AlphabeticToken_loop_spec : forall (n : nat) c acc r c',
  Scanner.AlphabeticToken_loop n c acc = (r, c') ->
  exists w, r = acc ++ w
    /\ source c = (list_ascii_of_string w ++ source c')%list
    /\ errors c' = errors c
    /\ no_delimiter w = true.
Proof.
  induction n as [|n IH]; intros [src errs] acc r c' H;
    cbn [Scanner.AlphabeticToken_loop] in H.
  - injection H as <- <-. exists "". now rewrite append_nil_r.
  - destruct src as [|ch rest].
    + injection H as <- <-. exists "". now rewrite append_nil_r.
    + rewrite Peek_cons, Get_cons in H.
      destruct (str_in (String ch "") Scanner.delimiters) eqn:E; cbn [negb] in H.
      * injection H as <- <-. exists "". now rewrite append_nil_r.
      * apply IH in H. destruct H as (w & -> & Hs & He & Hw).
        exists (String ch w). cbn [source errors] in *.
        rewrite append_assoc, Hs. repeat split; try assumption.
        unfold no_delimiter in *. cbn [str_all]. now rewrite E, Hw.
Qed.

Lemma IntegerToken_loop_spec : forall (n : nat) c acc r c',
  Scanner.IntegerToken_loop n c acc = (r, c') ->
  exists w, r = acc ++ w
    /\ source c = (list_ascii_of_string w ++ source c')%list
    /\ errors c' = errors c
    /\ str_all char_isdigit w = true.
Proof.
  induction n as [|n IH]; intros [src errs] acc r c' H;
    cbn [Scanner.IntegerToken_loop] in H.
  - injection H as <- <-. exists "". now rewrite append_nil_r.
  - destruct src as [|ch rest].
    + injection H as <- <-. exists "". now rewrite append_nil_r.
    + rewrite Peek_cons, Get_cons in H. unfold isdigit in H.
      cbn [str_all] in H. rewrite andb_true_r in H.
      destruct (char_isdigit ch) eqn:E.
      * apply IH in H. destruct H as (w & -> & Hs & He & Hw).
        exists (String ch w). cbn [source errors] in *.
        rewrite append_assoc, Hs. repeat split; try assumption.
        cbn [str_all]. now rewrite E, Hw.
      * injection H as <- <-. exists "". now rewrite append_nil_r.
Qed.

Lemma skip_ignored_spec : forall (n : nat) c c' b,
  Scanner.skip_ignored n c = (c', b) ->
  exists pre, source c = (pre ++ source c')%list
    /\ errors c' = errors c
    /\ forallb ignorable pre = true
    /\ (b = true -> source c' = []).
Proof.
  induction n as [|n IH]; intros [src errs] c' b H;
    cbn [Scanner.skip_ignored] in H.
  - destruct src as [|ch rest].
    + injection H as <- <-. now exists [].
    + rewrite Peek_cons, char_is_not_EOF in H.
      destruct (str_in _ Scanner.ignoredCharacters);
        injection H as <- <-; exists []; repeat split; discriminate.
  - destruct src as [|ch rest].
    + injection H as <- <-. now exists [].
    + rewrite Peek_cons, char_is_not_EOF, Get_cons in H. cbn [snd] in H.
      destruct (str_in (String ch "") Scanner.ignoredCharacters) eqn:E.
      * apply IH in H. destruct H as (pre & Hs & He & Hp & Hb).
        exists (ch :: pre). cbn [source errors] in *. rewrite Hs.
        repeat split; try assumption.
        cbn [forallb]. unfold ignorable at 1. now rewrite E.
      * injection H as <- <-. exists []. repeat split; discriminate.
Qed.

Lemma In_single_operator (w : string) :
  In w Scanner.singleCharOperators -> In w operator_codes.
Proof. simpl. intuition. Qed.

Lemma In_possiblyDouble_operator (w : string) :
  In w Scanner.possiblyDoubleCharOperators -> In w operator_codes.
Proof. simpl. intuition. Qed.

Lemma In_double_operator (w : string) :
  In w Scanner.doubleCharOperators -> In w operator_codes.
Proof. simpl. intuition. Qed.

Lemma OperatorToken_spec (ch : ascii) (rest : list ascii) (errs : list string) t c' :
  Scanner.OperatorToken (mkChario (ch :: rest) errs) = Ret t c' ->
  exists w, t = mkToken w None /\ In w operator_codes
    /\ ch :: rest = (list_ascii_of_string w ++ source c')%list
    /\ errors c' = errs.
Proof.
  unfold Scanner.OperatorToken. rewrite Get_cons.
  destruct ((String ch "" =? ".") && _) eqn:Edot.
  - apply andb_true_iff in Edot. destruct Edot as [E1 E2].
    apply String.eqb_eq in E1. injection E1 as ->.
    destruct rest as [|nxt rest]; [discriminate E2|].
    rewrite Peek_cons in E2. apply String.eqb_eq in E2. injection E2 as ->.
    rewrite Get_cons. intros H. injection H as <- <-.
    exists "..". repeat split. simpl. auto.
  - destruct (str_in (String ch "") Scanner.singleCharOperators) eqn:E1.
    + intros H. injection H as <- <-. exists (String ch "").
      repeat split. now apply In_single_operator, str_in_In.
    + destruct (str_in (String ch "") Scanner.possiblyDoubleCharOperators) eqn:E2;
        [|discriminate].
      destruct (str_in _ Scanner.doubleCharOperators) eqn:E3.
      * destruct rest as [|nxt rest].
        { apply possiblyDouble_cases in E2.
          destruct E2 as [->|[->|[->|[->| ->]]]]; discriminate E3. }
        rewrite Peek_cons in E3. rewrite Get_cons.
        intros H. injection H as <- <-.
        exists (String ch (String nxt "")). repeat split.
        now apply In_double_operator, str_in_In.
      * intros H. injection H as <- <-. exists (String ch "").
        repeat split. now apply In_possiblyDouble_operator, str_in_In.
Qed.

Lemma OperatorToken_raise (ch : ascii) (rest : list ascii) (errs : list string) e c' :
  Scanner.OperatorToken (mkChario (ch :: rest) errs) = Raise e c' ->
  e = "Unexpected symbol"
  /\ c' = mkChario rest
            (errs ++ [("Unexpected symbol '" ++ String ch "" ++ "'")%string])%list.
Proof.
  unfold Scanner.OperatorToken. rewrite Get_cons.
  destruct ((String ch "" =? ".") && _).
  - destruct (GetNextChar _). discriminate.
  - destruct (str_in (String ch "") Scanner.singleCharOperators); [discriminate|].
    destruct (str_in (String ch "") Scanner.possiblyDoubleCharOperators).
    + destruct (str_in _ Scanner.doubleCharOperators);
        [destruct (GetNextChar _)|]; discriminate.
    + intros H. injection H as <- <-. now split.
Qed.

(** Every token is the token of the text consumed for it, after a run of
    skipped characters; the sink is untouched. *)
Lemma GetNextToken_spec (rw : list string) (c : Chario) t c' :
  Scanner.GetNextToken rw c = Ret t c' ->
  errors c' = errors c
  /\ exists pre w,
       source c = (pre ++ list_ascii_of_string w ++ source c')%list
       /\ forallb ignorable pre = true
       /\ token_of_text rw w t
       /\ (w = "" -> source c' = []).
Proof.
  destruct c as [src errs]. unfold Scanner.GetNextToken. cbn [source].
  destruct (Scanner.skip_ignored _ _) as [c1 at_eof] eqn:E.
  pose proof (skip_ignored_spec _ _ _ _ E) as (pre & Hs & He & Hp & Hb).
  cbn [source errors] in Hs, He.
  destruct at_eof.
  - intros H. injection H as <- <-. split; [assumption|].
    exists pre, "". repeat split; try assumption.
    + left. now split.
    + intros _. now apply Hb.
  - apply skip_ignored_breaks in E. destruct E as (ch & rest & -> & Hch).
    cbn [source] in Hs. rewrite Peek_cons. unfold isalpha, isdigit.
    cbn [str_all]. rewrite !andb_true_r.
    destruct (char_isalpha ch) eqn:Ea; [|destruct (char_isdigit ch) eqn:Ed].
    + unfold Scanner.AlphabeticToken.
      cbn [source length Scanner.AlphabeticToken_loop].
      rewrite Peek_cons, Get_cons, (alpha_not_delimiter _ Ea). cbn [negb append].
      destruct (Scanner.AlphabeticToken_loop _ _ _) as [r c2] eqn:El.
      apply AlphabeticToken_loop_spec in El.
      destruct El as (w & -> & Hs2 & He2 & Hw). cbn [source errors append] in *.
      assert (Hnd : no_delimiter (String ch w) = true).
      { unfold no_delimiter in *. cbn [str_all].
        now rewrite (alpha_not_delimiter _ Ea), Hw. }
      intros H.
      assert (Hc : c' = c2) by (destruct (str_in _ rw); now injection H).
      subst c2. split; [assumption|].
      exists pre, (String ch w). cbn [list_ascii_of_string app].
      rewrite Hs, Hs2. repeat split; try assumption; [|discriminate].
      right. left. exists ch, w. repeat split; try assumption.
      destruct (str_in _ rw); now injection H.
    + unfold Scanner.IntegerToken.
      cbn [source length Scanner.IntegerToken_loop].
      rewrite Peek_cons, Get_cons. unfold isdigit. cbn [str_all].
      rewrite Ed. cbn [andb append].
      destruct (Scanner.IntegerToken_loop _ _ _) as [r c2] eqn:El.
      apply IntegerToken_loop_spec in El.
      destruct El as (w & -> & Hs2 & He2 & Hw). cbn [source errors append] in *.
      intros H. injection H as <- <-. split; [assumption|].
      exists pre, (String ch w). cbn [list_ascii_of_string app].
      rewrite Hs, Hs2. repeat split; try assumption; [|discriminate].
      right. right. left. repeat split; [discriminate|].
      cbn [str_all]. now rewrite Ed, Hw.
    + intros H. apply OperatorToken_spec in H.
      destruct H as (w & -> & Hin & Hsrc & He2). split; [assumption|].
      exists pre, w. rewrite Hs, Hsrc. repeat split; try assumption.
      * right. right. right. now split.
      * intros ->. simpl in Hin. intuition discriminate.
Qed.

Lemma GetNextToken_raise_spec (rw : list string) (c : Chario) e c' :
  Scanner.GetNextToken rw c = Raise e c' ->
  e = "Unexpected symbol"
  /\ exists pre ch,
       source c = (pre ++ ch :: source c')%list
       /\ forallb ignorable pre = true
       /\ errors c'
          = (errors c
             ++ [("Unexpected symbol '" ++ String ch "" ++ "'")%string])%list.
Proof.
  destruct c as [src errs]. unfold Scanner.GetNextToken. cbn [source].
  destruct (Scanner.skip_ignored _ _) as [c1 at_eof] eqn:E.
  pose proof (skip_ignored_spec _ _ _ _ E) as (pre & Hs & He & Hp & Hb).
  cbn [source errors] in Hs, He.
  destruct at_eof; [discriminate|].
  apply skip_ignored_breaks in E. destruct E as (ch & rest & -> & Hch).
  cbn [source] in Hs.
  destruct (isalpha _).
  - unfold Scanner.AlphabeticToken.
    destruct (Scanner.AlphabeticToken_loop _ _ _).
    destruct (str_in _ rw); discriminate.
  - destruct (isdigit _).
    + unfold Scanner.IntegerToken.
      destruct (Scanner.IntegerToken_loop _ _ _). discriminate.
    + intros H. apply OperatorToken_raise in H. destruct H as [-> ->].
      split; [reflexivity|]. exists pre, ch. now repeat split.
Qed.

(** The loops of the Scanner are bounded by the input: a call always
    ends. *)
Lemma GetNextToken_no_timeout (rw : list string) (c : Chario) :
  is_timeout (Scanner.GetNextToken rw c) = false.
Proof.
  unfold Scanner.GetNextToken.
  destruct (Scanner.skip_ignored _ _) as [c1 []]; [reflexivity|].
  destruct (isalpha _).
  - unfold Scanner.AlphabeticToken.
    destruct (Scanner.AlphabeticToken_loop _ _ _).
    now destruct (str_in _ rw).
  - destruct (isdigit _).
    + unfold Scanner.IntegerToken.
      now destruct (Scanner.IntegerToken_loop _ _ _).
    + unfold Scanner.OperatorToken.
      destruct (GetNextChar c1).
      repeat match goal with
             | |- is_timeout (if ?b then _ else _) = _ => destruct b
             | |- is_timeout (let (_, _) := ?x in _) = _ => destruct x
             end; reflexivity.
Qed.

(** X4.  The categories the Scanner can yield are closed: the code of a
    returned token is [EOF], [id], [int], one of the seventeen operator
    spellings, or a letter-led reserved word of the table (then without
    lexeme).  In particular no token [=] is ever returned, although [=]
    is a delimiter: alone it is not an operator the Scanner knows. *)
Theorem token_categories (rw : list string) (c : Chario) (t : Token) (c' : Chario) :
  Scanner.GetNextToken rw c = Ret t c' ->
  (In (code t) (["EOF"; "id"; "int"] ++ operator_codes)%list
   \/ (In (code t) rw /\ value t = None
       /\ exists a w, code t = String a w /\ char_isalpha a = true))
  /\ code t <> "=".
Proof.
  intros H. apply GetNextToken_spec in H.
  destruct H as (_ & pre & w & _ & _ & Ht & _).
  destruct Ht as [[_ ->]|[(a & w' & -> & Ha & _ & ->)|[(_ & _ & ->)|[Hin ->]]]].
  - split; [left; simpl; auto | discriminate].
  - destruct (str_in (String a w') rw) eqn:E; cbn [code value].
    + split.
      * right. repeat split; [now apply str_in_In|]. now exists a, w'.
      * intros Heq. injection Heq as -> _. discriminate Ha.
    + split; [left; simpl; auto | discriminate].
  - split; [left; simpl; auto | discriminate].
  - cbn [code]. split.
    + left. now do 3 right.
    + intros ->. simpl in Hin. intuition discriminate.
Qed.

Lemma token_categories_witness :
  code (mkToken "<=" None) <> "=".
Proof.
  exact (proj2 (token_categories reservedWords (chario_of "<= 1")
                  (mkToken "<=" None) (chario_of " 1") eq_refl)).
Defined.

(** X5.  Lexemes: a returned token carries a lexeme only as an
    identifier or an integer literal, and the lexeme is never empty: an
    identifier's is letter-led, free of delimiters and not a reserved
    word; an integer literal's is a digit string.  A token without
    lexeme whose code is [id] or [int] is that reserved word of the
    table. *)
Theorem token_lexemes (rw : list string) (c : Chario) (t : Token) (c' : Chario) :
  Scanner.GetNextToken rw c = Ret t c' ->
  match value t with
  | Some v =>
      v <> ""
      /\ ((code t = "id" /\ no_delimiter v = true /\ str_in v rw = false
           /\ exists a v', v = String a v' /\ char_isalpha a = true)
          \/ (code t = "int" /\ str_all char_isdigit v = true))
  | None => code t = "id" \/ code t = "int" -> In (code t) rw
  end.
Proof.
  intros H. apply GetNextToken_spec in H.
  destruct H as (_ & pre & w & _ & _ & Ht & _).
  destruct Ht as [[_ ->]|[(a & w' & -> & Ha & Hnd & ->)|[(Hne & Hd & ->)|[Hin ->]]]].
  - cbn [value code]. intros [H|H]; discriminate H.
  - destruct (str_in (String a w') rw) eqn:E; cbn [value code].
    + intros _. now apply str_in_In.
    + split; [discriminate|]. left. repeat split; try assumption.
      now exists a, w'.
  - cbn [value code]. split; [assumption|]. right. now split.
  - cbn [value code]. intros [-> | ->]; simpl in Hin; intuition discriminate.
Qed.

Lemma token_lexemes_witness :
  "x1" <> ""
  /\ (("id" = "id" /\ no_delimiter "x1" = true /\ str_in "x1" reservedWords = false
       /\ exists a v', "x1" = String a v' /\ char_isalpha a = true)
      \/ ("id" = "int" /\ str_all char_isdigit "x1" = true)).
Proof.
  exact (token_lexemes reservedWords (chario_of "x1+")
           (mkToken "id" (Some "x1")) (chario_of "+") eq_refl).
Defined.

(** X6.  The cursor only moves forward and the sink is only written on
    an error.  A call that returns leaves the sink as it was and the
    cursor on a suffix of the input; it consumes at least one character
    unless it returns the EOF token at the end of the input.  A call that
    raises has skipped a run of ignored characters, consumed exactly the
    one offending character after them, and appended exactly one
    [Unexpected symbol] diagnostic naming it. *)
Theorem cursor_moves_forward (rw : list string) (c : Chario) :
  match Scanner.GetNextToken rw c with
  | Ret t c' =>
      errors c' = errors c
      /\ exists consumed,
           source c = (consumed ++ source c')%list
           /\ (consumed = [] -> t = mkToken "EOF" None /\ source c = [])
  | Raise e c' =>
      e = "Unexpected symbol"
      /\ exists pre ch,
           source c = (pre ++ ch :: source c')%list
           /\ forallb ignorable pre = true
           /\ errors c'
              = (errors c
                 ++ [("Unexpected symbol '" ++ String ch "" ++ "'")%string])%list
  | Timeout _ => False
  end.
Proof.
  destruct (Scanner.GetNextToken rw c) as [t c'|e c'|c'] eqn:H.
  - apply GetNextToken_spec in H.
    destruct H as (He & pre & w & Hs & _ & Ht & Hend).
    split; [assumption|].
    exists (pre ++ list_ascii_of_string w)%list. split.
    + now rewrite <- app_assoc.
    + intros Hnil. apply app_eq_nil in Hnil. destruct Hnil as [-> Hw].
      assert (w = "") as -> by (destruct w; [reflexivity | discriminate Hw]).
      rewrite Hs, (Hend eq_refl). split; [|reflexivity].
      destruct Ht as [[_ ->]|[(a & w' & Hx & _)|[(Hne & _)|[Hin _]]]];
        try reflexivity; try discriminate Hx; try (now elim Hne).
      simpl in Hin. intuition discriminate.
  - now apply GetNextToken_raise_spec in H.
  - pose proof (GetNextToken_no_timeout rw c) as Hn.
    rewrite H in Hn. discriminate Hn.
Qed.

(** * Further properties of the Parser *)

(** ** Discarding and accepting on a token stream *)

(** X7.  Phrase-level discard with a newline token ahead: whatever the
    lookahead, [discard_tokens] drops it and the tokens up to and
    including the first newline token, skips the newline tokens that
    follow, prints one line listing what it dropped before the newline,
    leaves the sink alone, and returns with the lookahead on a token that
    is not a newline (the first one of the next non-blank line, or
    EOF). *)
Theorem discard_lands_on_next_line
    (fuel : nat) (t : Token) (pre : list Token) (nl : Token)
    (post : list Token) (d o : list string) :
  forallb (fun t => negb (Replay.is_newline t)) pre = true ->
  Replay.is_newline nl = true ->
  length pre + length post < fuel ->
  Replay.discard_tokens fuel (Replay.at_ t (pre ++ nl :: post)%list d o)
  = Ret tt (Replay.start (Replay.drop_newlines post) d
              (o ++ [("trailing tokens: " ++ Replay.spaced (t :: pre)
                      ++ "were discarded")%string])%list)
  /\ Replay.is_newline (hd t_eof (Replay.drop_newlines post)) = false.
Proof.
  intros Hp Hn Hf. split.
  - now apply discard_tokens_lands.
  - apply drop_newlines_lands.
Qed.

Lemma discard_lands_on_next_line_witness :
  Replay.discard_tokens 4
    (Replay.at_ (t_id "a") [t_sym "+"; t_newline; t_newline; t_id "b"] [] [])
  = Ret tt (Replay.at_ (t_id "b") [] [] ["trailing tokens: id(a) + were discarded"]).
Proof.
  apply (proj1 (discard_lands_on_next_line 4 (t_id "a") [t_sym "+"]
                  t_newline [t_newline; t_id "b"] [] []
                  eq_refl eq_refl (le_n 4))).
Defined.

Lemma accept_match_line_terminating
    (fuel : nat) (expected msg : string) (t : Token) (rest : list Token)
    (d o : list string) :
  Replay.is_newline t = false ->
  code t = expected ->
  str_in expected Parser.line_terminating_tokens = true ->
  length rest <= fuel ->
  Replay.accept fuel expected msg (Replay.at_ t rest d o)
  = Ret tt (Replay.start (Replay.drop_newlines rest) d o).
Proof.
  intros Hn Hc He Hf.
  rewrite (accept_match_after_skip fuel expected msg _ (Replay.at_ t rest d o)).
  - erewrite bind_ret_l by apply advance_start.
    unfold when_, ifM. rewrite He. now apply ignore_newlines_drops.
  - cbn [Replay.at_ Parser.token]. unfold Replay.is_newline in Hn. now rewrite Hn.
  - apply while_false. exact Hn.
  - cbn [Replay.at_ Parser.token]. now apply String.eqb_eq.
Qed.

Lemma accept_match_plain
    (fuel : nat) (expected msg : string) (t : Token) (rest : list Token)
    (d o : list string) :
  Replay.is_newline t = false ->
  code t = expected ->
  str_in expected Parser.line_terminating_tokens = false ->
  Replay.accept fuel expected msg (Replay.at_ t rest d o)
  = Ret tt (Replay.start rest d o).
Proof.
  intros Hn Hc He.
  rewrite (accept_match_after_skip fuel expected msg _ (Replay.at_ t rest d o)).
  - erewrite bind_ret_l by apply advance_start.
    unfold when_, ifM. now rewrite He.
  - cbn [Replay.at_ Parser.token]. unfold Replay.is_newline in Hn. now rewrite Hn.
  - apply while_false. exact Hn.
  - cbn [Replay.at_ Parser.token]. now apply String.eqb_eq.
Qed.

(** X8.  [accept] on a match: when the lookahead is of the expected
    category, [accept] writes no diagnostic and moves the lookahead to
    the next token of the stream; after [is], [loop] or [;] it moves
    further, past the newline tokens that follow, to the first token that
    is not a newline (or EOF). *)
Theorem accept_on_match
    (fuel : nat) (expected msg : string) (t : Token) (rest : list Token)
    (d o : list string) :
  Replay.is_newline t = false ->
  code t = expected ->
  length rest <= fuel ->
  Replay.accept fuel expected msg (Replay.at_ t rest d o)
  = Ret tt
      (Replay.start
         (if str_in expected [Tok.IS; Tok.LOOP; Tok.SEMICOLON]
          then Replay.drop_newlines rest else rest) d o).
Proof.
  intros Hn Hc Hf.
  destruct (str_in expected [Tok.IS; Tok.LOOP; Tok.SEMICOLON]) eqn:E.
  - now apply accept_match_line_terminating.
  - now apply accept_match_plain.
Qed.

Lemma accept_on_match_witness :
  Replay.accept 3 ";" "semicolon expected"
    (Replay.at_ (t_sym ";") [t_newline; t_newline; t_sym "end"] [] [])
  = Ret tt (Replay.at_ (t_sym "end") [] [] []).
Proof.
  exact (accept_on_match 3 ";" "semicolon expected" (t_sym ";")
           [t_newline; t_newline; t_sym "end"] [] []
           eq_refl eq_refl (le_n 3)).
Defined.

(** ** The fatal-error routine behind the Scanner of the repository *)

Lemma real_discard_loop_outcome : forall (fuel : nat) (msg : string) (p : Real.Parser),
  (code (Parser.token p) =? Tok.NEWLINE) = false ->
  match Parser.discard_loop Real.GetNextToken Token_str fuel msg p with
  | Ret _ _ => False
  | Raise e p' =>
      e = "Unexpected symbol" /\ Parser.stdout p' = Parser.stdout p
      /\ exists ch,
           errors (Parser.chario p')
           = (errors (Parser.chario p)
              ++ [("Unexpected symbol '" ++ String ch "" ++ "'")%string])%list
  | Timeout p' =>
      Parser.stdout p' = Parser.stdout p
      /\ errors (Parser.chario p') = errors (Parser.chario p)
  end.
Proof.
  induction fuel as [|fuel IH]; intros msg p Hn;
    cbn [Parser.discard_loop]; rewrite Hn; cbn [negb].
  - now split.
  - unfold bind, Parser.advance.
    destruct (Real.GetNextToken (Parser.chario p)) as [t w|e w|w] eqn:Hg.
    + pose proof (GetNextToken_never_newline _ _ _ _ Hg) as Ht.
      apply String.eqb_neq in Ht.
      apply GetNextToken_spec in Hg. destruct Hg as [He _].
      specialize (IH (msg ++ Token_str (Parser.token p) ++ " ")
                     (Parser.mkParser w t (Parser.stdout p)) Ht).
      cbn [Parser.chario Parser.stdout] in IH. rewrite He in IH. exact IH.
    + apply GetNextToken_raise_spec in Hg.
      destruct Hg as (-> & pre & ch & _ & _ & He).
      cbn [Parser.chario Parser.stdout]. repeat split.
      exists ch. exact He.
    + cbn [Parser.chario Parser.stdout].
      pose proof (GetNextToken_no_timeout reservedWords (Parser.chario p)) as H.
      unfold Real.GetNextToken in Hg. rewrite Hg in H. discriminate H.
Qed.

Lemma real_fatalError_outcome (fuel : nat) (msg : string) (p : Real.Parser) :
  match Parser.fatalError Real.GetNextToken PrintErrorMessage Token_str
          fuel msg p with
  | Ret _ _ => False
  | Raise e p' =>
      e = "Unexpected symbol" /\ Parser.stdout p' = Parser.stdout p
      /\ exists ch,
           errors (Parser.chario p')
           = (errors (Parser.chario p)
              ++ [msg; ("Unexpected symbol '" ++ String ch "" ++ "'")%string])%list
  | Timeout p' =>
      Parser.stdout p' = Parser.stdout p
      /\ errors (Parser.chario p') = (errors (Parser.chario p) ++ [msg])%list
  end.
Proof.
  unfold Parser.fatalError.
  erewrite bind_ret_l by reflexivity.
  unfold bind at 1, Parser.discard_tokens, bind at 1, Parser.advance.
  cbn [Parser.chario Parser.token Parser.stdout].
  destruct (Real.GetNextToken (PrintErrorMessage msg (Parser.chario p)))
    as [t w|e w|w] eqn:Hg.
  - pose proof (GetNextToken_never_newline _ _ _ _ Hg) as Ht.
    apply String.eqb_neq in Ht.
    apply GetNextToken_spec in Hg. destruct Hg as [He _].
    unfold bind at 1.
    pose proof (real_discard_loop_outcome fuel
                  ("trailing tokens: " ++ Token_str (Parser.token p) ++ " ")
                  (Parser.mkParser w t (Parser.stdout p)) Ht) as H.
    cbn [Parser.chario Parser.stdout] in H. rewrite He in H.
    unfold PrintErrorMessage in H. cbn [errors] in H.
    destruct (Parser.discard_loop _ _ _ _ _) as [m p'|e p'|p'];
      [contradiction | |].
    + destruct H as (-> & Hs & ch & Hm). repeat split; [assumption|].
      exists ch. now rewrite Hm, <- app_assoc.
    + exact H.
  - apply GetNextToken_raise_spec in Hg.
    destruct Hg as (-> & pre & ch & _ & _ & He).
    cbn [Parser.chario Parser.stdout]. repeat split.
    unfold PrintErrorMessage in He. cbn [errors] in He.
    exists ch. rewrite He, <- app_assoc. reflexivity.
  - pose proof (GetNextToken_no_timeout reservedWords
                  (PrintErrorMessage msg (Parser.chario p))) as H.
    unfold Real.GetNextToken in Hg. rewrite Hg in H. discriminate H.
Qed.

(** X9.  With the Scanner of the repository, [fatalError] never gets to
    its own [raise].  It writes its message to the sink and then either
    hangs in the discard, the sink holding that one new diagnostic, or is
    ended by a lexical error met while discarding: the caller then sees
    the Scanner's exception, and the sink holds the message followed by
    the one lexical diagnostic.  It never returns normally, never raises
    "Fatal error: ...", and never prints the "trailing tokens" line. *)
Theorem fatalError_behind_the_Scanner
    (fuel : nat) (msg : string) (p : Real.Parser) :
  match Parser.fatalError Real.GetNextToken PrintErrorMessage Token_str
          fuel msg p with
  | Ret _ _ => False
  | Raise e p' =>
      e = "Unexpected symbol" /\ Parser.stdout p' = Parser.stdout p
      /\ exists ch,
           errors (Parser.chario p')
           = (errors (Parser.chario p)
              ++ [msg; ("Unexpected symbol '" ++ String ch "" ++ "'")%string])%list
  | Timeout p' =>
      Parser.stdout p' = Parser.stdout p
      /\ errors (Parser.chario p') = (errors (Parser.chario p) ++ [msg])%list
  end.
Proof. apply real_fatalError_outcome. Qed.

(** ** Expressions on a token stream *)

Lemma term_id (n : nat) (a : string) (t : Token) rest d o :
  (code t =? "(") = false ->
  (code t =? "**") = false ->
  Replay.term (4 + n) (Replay.at_ (t_id a) (t :: rest) d o)
  = Ret tt (Replay.at_ t rest d o).
Proof.
  intros H1 H2. unfold Replay.term.
  change (4 + n) with (S (3 + n)). rewrite term_is_one_factor.
  now apply factor_plain.
Qed.

Lemma adding_operator_code (op : string) :
  str_in op Tok.addingOperator = true ->
  (op =? "(") = false /\ (op =? "**") = false.
Proof.
  intros H. apply str_in_In in H. simpl in H.
  destruct H as [<-|[<-|[]]]; now split.
Qed.

Lemma operands_next (chain : list (string * string)) (t : Token) rest :
  Replay.adding_chain chain = true ->
  Replay.ends_simple_expression t = true ->
  exists nxt more,
    (Replay.operands chain ++ t :: rest)%list = nxt :: more
    /\ (code nxt =? "(") = false /\ (code nxt =? "**") = false.
Proof.
  intros Hc Ht. destruct chain as [|[op x] chain].
  - exists t, rest. unfold Replay.ends_simple_expression in Ht.
    apply andb_true_iff in Ht. destruct Ht as [Ht _].
    apply andb_true_iff in Ht. destruct Ht as [H1 H2].
    apply negb_true_iff in H1, H2. now repeat split.
  - cbn [Replay.operands app]. eexists _, _. split; [reflexivity|].
    cbn [Replay.adding_chain forallb fst] in Hc.
    apply andb_true_iff in Hc. destruct Hc as [Hop _].
    cbn [code]. now apply adding_operator_code.
Qed.

Lemma adding_chain_loop : forall (chain : list (string * string)) (k n : nat)
    (t : Token) rest d o,
  Replay.adding_chain chain = true ->
  Replay.ends_simple_expression t = true ->
  length chain <= k ->
  while_ k (Parser.tok_in Tok.addingOperator)
    (Replay.advance ;; Replay.term (4 + n))
    (Replay.start (Replay.operands chain ++ t :: rest)%list d o)
  = Ret tt (Replay.at_ t rest d o).
Proof.
  induction chain as [|[op x] chain IH]; intros k n t rest d o Hc Ht Hk.
  - apply while_false. unfold Replay.ends_simple_expression in Ht.
    apply andb_true_iff in Ht. destruct Ht as [_ Ht].
    apply negb_true_iff in Ht. exact Ht.
  - destruct k as [|k]; [simpl in Hk; lia|].
    pose proof Hc as Hc'.
    cbn [Replay.adding_chain forallb fst] in Hc'.
    apply andb_true_iff in Hc'. destruct Hc' as [Hop Hc'].
    cbn [Replay.operands app]. rewrite start_cons.
    rewrite while_true by exact Hop.
    destruct (operands_next chain t rest Hc' Ht) as (nxt & more & E & H1 & H2).
    erewrite bind_ret_l.
    2:{ erewrite bind_ret_l by apply advance_start.
        rewrite start_cons, E. now apply term_id. }
    change (Replay.at_ nxt more d o) with (Replay.start (nxt :: more) d o).
    rewrite <- E.
    apply IH; try assumption. simpl in Hk. lia.
Qed.

(** X10.  [simpleExpression] takes a whole chain: after an optional
    sign, an identifier followed by any number of [(adding operator,
    identifier)] pairs is consumed to its end, the lookahead being left on
    the token that follows (one that continues neither the name, nor the
    factor, nor the chain).  The loop of this rule tests the code of the
    token, and runs. *)
Theorem simpleExpression_takes_the_whole_chain
    (n : nat) (sign : option string) (a : string)
    (chain : list (string * string)) (t : Token) (rest : list Token)
    (d o : list string) :
  Replay.sign_ok sign = true ->
  Replay.adding_chain chain = true ->
  Replay.ends_simple_expression t = true ->
  Replay.simpleExpression (5 + length chain + n)
    (Replay.start
       (Replay.sign_tokens sign
        ++ t_id a :: Replay.operands chain ++ t :: rest)%list d o)
  = Ret tt (Replay.at_ t rest d o).
Proof.
  intros Hs Hc Ht.
  change (Replay.simpleExpression (5 + length chain + n))
    with (when_ (Parser.tok_in Tok.addingOperator) Replay.advance ;;
          Replay.term (4 + (length chain + n)) ;;
          while_ (4 + (length chain + n)) (Parser.tok_in Tok.addingOperator)
            (Replay.advance ;; Replay.term (4 + (length chain + n)))).
  destruct (operands_next chain t rest Hc Ht) as (nxt & more & E & H1 & H2).
  erewrite bind_ret_l with
    (s' := Replay.at_ (t_id a) (Replay.operands chain ++ t :: rest)%list d o).
  2:{ destruct sign as [op|]; cbn [Replay.sign_tokens app]; rewrite start_cons.
      - unfold when_, ifM, Parser.tok_in. cbn [Replay.at_ Parser.token code].
        cbn [Replay.sign_ok] in Hs. rewrite Hs. apply advance_start.
      - reflexivity. }
  erewrite bind_ret_l by (rewrite E; now apply term_id).
  change (Replay.at_ nxt more d o) with (Replay.start (nxt :: more) d o).
  rewrite <- E.
  apply adding_chain_loop; try assumption. lia.
Qed.

Lemma simpleExpression_takes_the_whole_chain_witness :
  Replay.simpleExpression 7
    (Replay.at_ (t_sym "-")
       [t_id "a"; t_sym "+"; t_id "b"; t_sym "-"; t_id "c"; t_sym ";"] [] [])
  = Ret tt (Replay.at_ (t_sym ";") [] [] []).
Proof.
  exact (simpleExpression_takes_the_whole_chain 0 (Some "-") "a"
           [("+", "b"); ("-", "c")] (t_sym ";") [] [] []
           eq_refl eq_refl eq_refl).
Defined.

(** X11.  Operators are not mixed at one level.  A relation takes at
    most one relational operator: on [a r1 b r2 c] it stops with the
    second operator as the lookahead.  An expression continues with the
    logical operator it met first: on [a and b or c] it stops at [or],
    on [a or b and c] at [and], while a chain of one operator,
    [a and b and c], is consumed whole. *)
Theorem expression_operators_are_not_mixed
    (n : nat) (a b c r1 r2 : string) (rest : list Token) (d o : list string) :
  In r1 Tok.relationalOperator ->
  In r2 Tok.relationalOperator ->
  Replay.relation (9 + n)
    (Replay.at_ (t_id a)
       (t_sym r1 :: t_id b :: t_sym r2 :: t_id c :: rest) d o)
  = Ret tt (Replay.at_ (t_sym r2) (t_id c :: rest) d o)
  /\ Replay.expression (9 + n)
       (Replay.at_ (t_id a)
          (t_sym "and" :: t_id b :: t_sym "or" :: t_id c :: rest) d o)
     = Ret tt (Replay.at_ (t_sym "or") (t_id c :: rest) d o)
  /\ Replay.expression (9 + n)
       (Replay.at_ (t_id a)
          (t_sym "or" :: t_id b :: t_sym "and" :: t_id c :: rest) d o)
     = Ret tt (Replay.at_ (t_sym "and") (t_id c :: rest) d o)
  /\ Replay.expression (9 + n)
       (Replay.at_ (t_id a)
          (t_sym "and" :: t_id b :: t_sym "and" :: t_id c :: t_sym ";" :: rest)
          d o)
     = Ret tt (Replay.at_ (t_sym ";") rest d o).
Proof.
  intros H1 H2. simpl in H1, H2.
  split; [|repeat split; vm_compute; reflexivity].
  destruct H1 as [<-|[<-|[<-|[<-|[<-|[<-|[]]]]]]];
    destruct H2 as [<-|[<-|[<-|[<-|[<-|[<-|[]]]]]]];
    vm_compute; reflexivity.
Qed.

Lemma expression_operators_are_not_mixed_witness :
  Replay.relation 9
    (Replay.at_ (t_id "a") [t_sym "<"; t_id "b"; t_sym "<"; t_id "c"] [] [])
  = Ret tt (Replay.at_ (t_sym "<") [t_id "c"] [] []).
Proof.
  apply (proj1 (expression_operators_are_not_mixed 0 "a" "b" "c" "<" "<"
                  [] [] [] (or_intror (or_intror (or_introl eq_refl)))
                  (or_intror (or_intror (or_introl eq_refl))))).
Defined.

(** ** Where a parse ends *)

Lemma accept_then_no_newline
    (fuel : nat) (expected msg : string) (t : Token) (rest : list Token)
    (d o : list string) :
  Replay.is_newline t = false ->
  code t = expected ->
  Replay.is_newline (hd t_eof rest) = false ->
  Replay.accept fuel expected msg (Replay.at_ t rest d o)
  = Ret tt (Replay.start rest d o).
Proof.
  intros Hn Hc Hr.
  rewrite (accept_match_after_skip fuel expected msg _ (Replay.at_ t rest d o)).
  - erewrite bind_ret_l by apply advance_start.
    unfold when_, ifM.
    destruct (str_in expected Parser.line_terminating_tokens); [|reflexivity].
    apply while_false. exact Hr.
  - cbn [Replay.at_ Parser.token]. unfold Replay.is_newline in Hn. now rewrite Hn.
  - apply while_false. exact Hn.
  - cbn [Replay.at_ Parser.token]. now apply String.eqb_eq.
Qed.

(** X12.  A parse ends at the semicolon that closes the subprogram body.
    The identifier after [end] is optional and is not compared with the
    name of the procedure, and what follows the final semicolon is not
    examined: the session completes without a diagnostic, the lookahead
    on the first token after the semicolon and the rest of the stream
    unread. *)
Theorem parse_ends_at_the_final_semicolon
    (n : nat) (a : string) (closing : option string) (rest : list Token)
    (d : list string) :
  Replay.is_newline (hd t_eof rest) = false ->
  Replay.run (4 + n)
    (Replay.mkTape
       ([t_sym "procedure"; t_id a; t_sym "is"; t_sym "begin"; t_sym "null";
         t_sym ";"; t_sym "end"]
        ++ Replay.closing_tokens closing ++ t_sym ";" :: rest)%list d)
  = Parser.Completed (Replay.start rest d []).
Proof.
  intros Hr. unfold Replay.run, Parser.run, Parser.init, Parser.parse.
  cbn [app Replay.GetNextToken Replay.pending Replay.sink].
  change (4 + n) with (S (3 + n)). rewrite subprogramBody_S.
  destruct closing as [b|]; cbn [Replay.closing_tokens app];
    do 4 (erewrite bind_ret_l by (vm_compute; reflexivity));
    (erewrite try_ret; [reflexivity|]);
    (erewrite bind_ret_l by (vm_compute; reflexivity));
    (erewrite bind_ret_l by (vm_compute; reflexivity));
    now apply accept_then_no_newline.
Qed.

Lemma parse_ends_at_the_final_semicolon_witness :
  Replay.run 4
    (Replay.mkTape
       [t_sym "procedure"; t_id "Foo"; t_sym "is"; t_sym "begin"; t_sym "null";
        t_sym ";"; t_sym "end"; t_id "Bar"; t_sym ";"; t_sym ")"; t_id "x"] [])
  = Parser.Completed (Replay.at_ (t_sym ")") [t_id "x"] [] []).
Proof.
  exact (parse_ends_at_the_final_semicolon 0 "Foo" (Some "Bar")
           [t_sym ")"; t_id "x"] [] eq_refl).
Defined.

(** ** Handlers *)

Lemma loopStatement_never_raises
    (W : Type) (G : W -> outcome W Token) (Pr : string -> W -> W)
    (Ts : Token -> string) (fuel : nat) :
  never_raises (Parser.loopStatement G Pr Ts fuel).
Proof.
  destruct fuel as [|f]; [apply never_raises_timeout|].
  change (Parser.loopStatement G Pr Ts (S f))
    with (try_ (when_ (Parser.tok_is Tok.WHILE) (Parser.iterationScheme G Pr Ts f) ;;
                Parser.accept G Pr Ts f Tok.LOOP "loop expected")
               (Parser.print
                  ("continue parsing from sequence of statements of loop statement"
                   ++ LF)) ;;
          Parser.sequenceOfStatements G Pr Ts f ;;
          try_ (Parser.accept G Pr Ts f Tok.END "end expected" ;;
                Parser.accept G Pr Ts f Tok.LOOP "loop expected" ;;
                Parser.accept G Pr Ts f Tok.SEMICOLON "semicolon expected")
               (Parser.print ("stop parsing loop statement" ++ LF))).
  apply never_raises_bind; [apply never_raises_try, print_never_raises|intros _].
  apply never_raises_bind; [apply sequenceOfStatements_never_raises|intros _].
  apply never_raises_try, print_never_raises.
Qed.

Lemma declarativePart_never_raises
    (W : Type) (G : W -> outcome W Token) (Pr : string -> W -> W)
    (Ts : Token -> string) (fuel : nat) :
  never_raises (Parser.declarativePart G Pr Ts fuel).
Proof.
  destruct fuel as [|f]; [apply never_raises_timeout|].
  rewrite declarativePart_S.
  apply never_raises_while, never_raises_try, print_never_raises.
Qed.

(** X13.  Recovery points, over any scanner: no [RuntimeError] leaves a
    statement sequence, a loop statement or the declarative part.  Each
    catches what its parts raise (the loop statement around its header
    and around its closing, the declarative part around each
    declaration, the sequence through [statement]) and goes on. *)
Theorem recovery_points_never_raise
    (W : Type) (G : W -> outcome W Token) (Pr : string -> W -> W)
    (Ts : Token -> string) (fuel : nat) (p : Parser.Parser W) :
  is_raise (Parser.sequenceOfStatements G Pr Ts fuel p) = false
  /\ is_raise (Parser.loopStatement G Pr Ts fuel p) = false
  /\ is_raise (Parser.declarativePart G Pr Ts fuel p) = false.
Proof.
  repeat split.
  - apply sequenceOfStatements_never_raises.
  - apply loopStatement_never_raises.
  - apply declarativePart_never_raises.
Qed.

(** ** A token that starts no statement *)

Lemma starts_no_statement_codes (t : Token) :
  Replay.starts_no_statement t = true ->
  str_in (code t) [Tok.IF; Tok.WHILE; Tok.LOOP] = false
  /\ (code t =? Tok.NULL) = false /\ (code t =? Tok.EXIT) = false
  /\ (code t =? Tok.ID) = false /\ (code t =? Tok.NEWLINE) = false.
Proof.
  unfold Replay.starts_no_statement, str_in. cbn [existsb].
  intros H. apply negb_true_iff in H.
  apply orb_false_iff in H. destruct H as [H1 H].
  apply orb_false_iff in H. destruct H as [H2 H].
  apply orb_false_iff in H. destruct H as [H3 H].
  apply orb_false_iff in H. destruct H as [H4 H].
  apply orb_false_iff in H. destruct H as [H5 H].
  apply orb_false_iff in H. destruct H as [H6 H].
  apply orb_false_iff in H. destruct H as [H7 _].
  rewrite H1, H2, H3. now repeat split.
Qed.

Lemma try_print_diags (m : M Replay.Parser unit) (line : string) (p : Replay.Parser) :
  is_ret (m p) = false ->
  Replay.diags (final (try_ m (Parser.print line) p))
  = Replay.diags (final (m p))
  /\ is_raise (try_ m (Parser.print line) p) = false.
Proof. unfold try_. now destruct (m p). Qed.

(** X14.  A token that starts no statement: when [statement] is called
    with a lookahead that is not [if], [while], [loop], [null], [exit],
    an identifier or a newline (for instance [end], for an empty statement
    sequence), it takes the token for the start of a name, writes exactly
    one diagnostic, "expected [id] but <the token> was detected", to the
    sink, and lets no exception out. *)
Theorem statement_reports_a_bad_start_once
    (fuel : nat) (t : Token) (rest : list Token) (d o : list string) :
  Replay.starts_no_statement t = true ->
  Replay.diags
    (final (Replay.statement (2 + fuel) (Replay.at_ t rest d o)))
  = (d ++ [("expected [id] but " ++ Token_str t ++ " was detected")%string])%list
  /\ is_raise (Replay.statement (2 + fuel) (Replay.at_ t rest d o)) = false.
Proof.
  intros H. apply starts_no_statement_codes in H.
  destruct H as (Hc & Hnull & Hexit & Hid & Hnl).
  set (p := Replay.at_ t rest d o).
  assert (Hname : Replay.name (1 + fuel) p
                  = Replay.fatalError fuel
                      (Parser.diagnostic Token_str Tok.ID t) p).
  { change (Replay.name (1 + fuel) p)
      with ((Replay.accept fuel Tok.ID "identifier expected" ;;
             when_ (Parser.tok_is Tok.PARENTHESIS_OPEN)
               (Parser.indexedComponent Replay.GetNextToken
                  Replay.PrintErrorMessage Token_str fuel)) p).
    rewrite bind_no_ret.
    - apply (accept_mismatch_after_skip fuel Tok.ID _ p p).
      + subst p. cbn [Replay.at_ Parser.token]. now rewrite Hnl.
      + apply while_false. exact Hnl.
      + exact Hid.
    - rewrite (accept_mismatch_after_skip fuel Tok.ID _ p p).
      + apply fatalError_no_ret.
      + subst p. cbn [Replay.at_ Parser.token]. now rewrite Hnl.
      + apply while_false. exact Hnl.
      + exact Hid. }
  assert (Hinner :
    ifM (Parser.tok_in [Tok.IF; Tok.WHILE; Tok.LOOP])
      (Parser.compoundStatement Replay.GetNextToken Replay.PrintErrorMessage
         Token_str (1 + fuel))
      (Parser.simpleStatement Replay.GetNextToken Replay.PrintErrorMessage
         Token_str (1 + fuel)) p
    = Replay.fatalError fuel (Parser.diagnostic Token_str Tok.ID t) p).
  { rewrite ifM_false by exact Hc.
    unfold Parser.simpleStatement.
    rewrite ifM_false by exact Hnull. rewrite ifM_false by exact Hexit.
    unfold Parser.nameStatement. fold Replay.name.
    rewrite bind_no_ret; rewrite Hname; [reflexivity | apply fatalError_no_ret]. }
  assert (Hst : Replay.statement (2 + fuel) p
    = try_
        (ifM (Parser.tok_in [Tok.IF; Tok.WHILE; Tok.LOOP])
           (Parser.compoundStatement Replay.GetNextToken
              Replay.PrintErrorMessage Token_str (1 + fuel))
           (Parser.simpleStatement Replay.GetNextToken
              Replay.PrintErrorMessage Token_str (1 + fuel)))
        (Parser.print ("continue parsing next statement" ++ LF)) p)
    by reflexivity.
  rewrite Hst.
  destruct (try_print_diags _ ("continue parsing next statement" ++ LF) p
              (eq_trans (f_equal is_ret Hinner) (fatalError_no_ret _ _ _ _ _ _ _)))
    as [Hd Hr].
  split; [|exact Hr].
  etransitivity; [exact Hd|].
  rewrite Hinner. apply fatalError_diags.
Qed.

Lemma statement_reports_a_bad_start_once_witness :
  Replay.diags
    (final (Replay.statement 2
              (Replay.at_ (t_sym "end") [t_id "Foo"; t_sym ";"] [] [])))
  = ["expected [id] but end was detected"].
Proof.
  exact (proj1 (statement_reports_a_bad_start_once 0 (t_sym "end")
                  [t_id "Foo"; t_sym ";"] [] [] eq_refl)).
Defined.

(** * Relations every rule of the Parser respects *)

Section Respects.

Variable W : Type.
Variable G : W -> outcome W Token.
Variable Pr : string -> W -> W.
Variable Ts : Token -> string.

Local Abbreviation Parser := (Parser.Parser W).

Variables Rn Rt : Parser -> Parser -> Prop.

Hypothesis Rn_refl : forall p, Rn p p.
Hypothesis Rn_trans : forall p q r, Rn p q -> Rn q r -> Rn p r.
Hypothesis Rn_Rt : forall p q r, Rn p q -> Rt q r -> Rt p r.
Hypothesis Rt_refl : forall p, Rt p p.

(** The three things a rule does to the state: it reads a token, prints
    a line, or runs the fatal-error routine. *)
Hypothesis advance_respects : respects Rn Rt (Parser.advance G).
Hypothesis print_respects : forall line, respects Rn Rt (Parser.print (W:=W) line).
Hypothesis fatalError_respects :
  forall fuel msg, respects Rn Rt (Parser.fatalError G Pr Ts fuel msg).

Lemma respects_ret {A} (a : A) : respects Rn Rt (ret (S:=Parser) a).
Proof. intros p. apply Rn_refl. Qed.

Lemma respects_timeout {A} : respects Rn Rt (@timeout Parser A).
Proof. intros p. apply Rt_refl. Qed.

Lemma respects_bind {A B} (m : M Parser A) (k : A -> M Parser B) :
  respects Rn Rt m -> (forall a, respects Rn Rt (k a)) ->
  respects Rn Rt (bind m k).
Proof.
  intros Hm Hk p. unfold bind. specialize (Hm p).
  destruct (m p) as [a q|e q|q]; try assumption.
  specialize (Hk a q). destruct (k a q); eauto.
Qed.

Lemma respects_try (m h : M Parser unit) :
  respects Rn Rt m -> respects Rn Rt h -> respects Rn Rt (try_ m h).
Proof.
  intros Hm Hh p. unfold try_. specialize (Hm p).
  destruct (m p) as [a q|e q|q]; try assumption.
  specialize (Hh q). destruct (h q); eauto.
Qed.

Lemma respects_ifM {A} (c : Parser -> bool) (a b : M Parser A) :
  respects Rn Rt a -> respects Rn Rt b -> respects Rn Rt (ifM c a b).
Proof. intros Ha Hb p. unfold ifM. destruct (c p); [apply Ha | apply Hb]. Qed.

Lemma respects_when (c : Parser -> bool) (a : M Parser unit) :
  respects Rn Rt a -> respects Rn Rt (when_ c a).
Proof. intros Ha. apply respects_ifM; [assumption | apply respects_ret]. Qed.

Lemma respects_while (fuel : nat) (c : Parser -> bool) (body : M Parser unit) :
  respects Rn Rt body -> respects Rn Rt (while_ fuel c body).
Proof.
  intros Hb. induction fuel as [|fuel IH]; intros p; simpl.
  - destruct (c p); [apply Rt_refl | apply Rn_refl].
  - destruct (c p); [|apply Rn_refl].
    apply (respects_bind body (fun _ => while_ fuel c body) Hb (fun _ => IH)).
Qed.

Lemma respects_fatalError_at (fuel : nat) (msg : Parser -> string) :
  respects Rn Rt (fun p => Parser.fatalError G Pr Ts fuel (msg p) p).
Proof. intros p. apply fatalError_respects. Qed.

Lemma respects_ignore_newlines (fuel : nat) :
  respects Rn Rt (Parser.ignore_newlines G fuel).
Proof. apply respects_while, advance_respects. Qed.

Lemma respects_accept (fuel : nat) (expected msg : string) :
  respects Rn Rt (Parser.accept G Pr Ts fuel expected msg).
Proof.
  intros p. unfold Parser.accept.
  apply (respects_bind _ _); [apply respects_when, fatalError_respects|intros _].
  apply respects_bind; [apply respects_ignore_newlines|intros _].
  apply respects_bind; [apply respects_when, fatalError_respects|intros _].
  apply respects_bind; [apply advance_respects|intros _].
  apply respects_when, respects_ignore_newlines.
Qed.

Ltac respects_step :=
  first
    [ assumption
    | apply respects_timeout
    | apply respects_ret
    | apply respects_accept
    | apply respects_ignore_newlines
    | apply advance_respects
    | apply print_respects
    | apply fatalError_respects
    | apply respects_fatalError_at
    | apply respects_bind; [|intros ?]
    | apply respects_try
    | apply respects_ifM
    | apply respects_when
    | apply respects_while ].

Lemma respects_expressions (fuel : nat) :
  respects Rn Rt (Parser.expression G Pr Ts fuel)
  /\ respects Rn Rt (Parser.relation G Pr Ts fuel)
  /\ respects Rn Rt (Parser.simpleExpression G Pr Ts fuel)
  /\ respects Rn Rt (Parser.term G Pr Ts fuel)
  /\ respects Rn Rt (Parser.factor G Pr Ts fuel)
  /\ respects Rn Rt (Parser.primary G Pr Ts fuel)
  /\ respects Rn Rt (Parser.name G Pr Ts fuel)
  /\ respects Rn Rt (Parser.indexedComponent G Pr Ts fuel).
Proof.
  induction fuel as [|f (He & Hr & Hs & Ht & Hf & Hp & Hn & Hi)].
  - repeat split; apply respects_timeout.
  - repeat split; cbn; repeat respects_step.
Qed.

Ltac respects_rule :=
  intros; pose proof respects_expressions as Hx;
  unfold Parser.identifierList, Parser.range, Parser.index,
    Parser.enumerationTypeDefinition, Parser.arrayTypeDefinition,
    Parser.typeDefinition, Parser.objectDeclaration, Parser.numberDeclaration,
    Parser.numberOrObjectDeclaration, Parser.typeDeclaration, Parser.mode,
    Parser.parameterSpecification, Parser.formalPart,
    Parser.subprogramSpecification, Parser.nullStatement,
    Parser.assignmentStatement, Parser.actualParameterPart,
    Parser.procedureCallStatement, Parser.exitStatement,
    Parser.iterationScheme, Parser.nameStatement, Parser.simpleStatement,
    Parser.condition;
  repeat first [ respects_step | apply Hx ].

Lemma respects_subprogramSpecification (fuel : nat) :
  respects Rn Rt (Parser.subprogramSpecification G Pr Ts fuel).
Proof. respects_rule. Qed.

Lemma respects_numberOrObjectDeclaration (fuel : nat) :
  respects Rn Rt (Parser.numberOrObjectDeclaration G Pr Ts fuel).
Proof. respects_rule. Qed.

Lemma respects_typeDeclaration (fuel : nat) :
  respects Rn Rt (Parser.typeDeclaration G Pr Ts fuel).
Proof. respects_rule. Qed.

Lemma respects_simpleStatement (fuel : nat) :
  respects Rn Rt (Parser.simpleStatement G Pr Ts fuel).
Proof. respects_rule. Qed.

Lemma respects_condition (fuel : nat) :
  respects Rn Rt (Parser.condition G Pr Ts fuel).
Proof. respects_rule. Qed.

Lemma respects_iterationScheme (fuel : nat) :
  respects Rn Rt (Parser.iterationScheme G Pr Ts fuel).
Proof. respects_rule. Qed.

Lemma respects_statements (fuel : nat) :
  respects Rn Rt (Parser.sequenceOfStatements G Pr Ts fuel)
  /\ respects Rn Rt (Parser.statement G Pr Ts fuel)
  /\ respects Rn Rt (Parser.compoundStatement G Pr Ts fuel)
  /\ respects Rn Rt (Parser.ifStatement G Pr Ts fuel)
  /\ respects Rn Rt (Parser.loopStatement G Pr Ts fuel).
Proof.
  induction fuel as [|f (Hq & Hs & Hc & Hi & Hl)].
  - repeat split; apply respects_timeout.
  - repeat split; cbn;
      repeat first [ respects_step
                   | apply respects_simpleStatement
                   | apply respects_condition
                   | apply respects_iterationScheme
                   | apply respects_expressions ].
Qed.

Lemma respects_subprogramBodies (fuel : nat) :
  respects Rn Rt (Parser.subprogramBody G Pr Ts fuel)
  /\ respects Rn Rt (Parser.declarativePart G Pr Ts fuel)
  /\ respects Rn Rt (Parser.basicDeclaration G Pr Ts fuel).
Proof.
  induction fuel as [|f (Hb & Hd & Hc)].
  - repeat split; apply respects_timeout.
  - repeat split; cbn;
      repeat first [ respects_step
                   | apply respects_subprogramSpecification
                   | apply respects_numberOrObjectDeclaration
                   | apply respects_typeDeclaration
                   | apply respects_statements
                   | apply respects_expressions ].
Qed.

(** The fatal-error routine respects what its three steps respect. *)
Lemma respects_discard_loop : forall (fuel : nat) (msg : string),
  respects Rn Rt (Parser.discard_loop G Ts fuel msg).
Proof.
  induction fuel as [|fuel IH]; intros msg p; cbn [Parser.discard_loop].
  - destruct (negb _); [apply Rt_refl | apply Rn_refl].
  - destruct (negb _); [|apply Rn_refl].
    apply (respects_bind (Parser.advance G) _ advance_respects (fun _ => IH _)).
Qed.

Lemma respects_discard_tokens (fuel : nat) :
  respects Rn Rt (Parser.discard_tokens G Ts fuel).
Proof.
  intros p. unfold Parser.discard_tokens.
  apply (respects_bind (Parser.advance G) _ advance_respects). intros _.
  apply respects_bind; [apply respects_discard_loop|intros m].
  apply respects_bind; [apply respects_ignore_newlines|intros _].
  apply print_respects.
Qed.

Lemma respects_fatalError_steps :
  (forall msg, respects Rn Rt (Parser.PrintErrorMessage Pr msg)) ->
  forall fuel msg, respects Rn Rt (Parser.fatalError G Pr Ts fuel msg).
Proof.
  intros HP fuel msg. unfold Parser.fatalError.
  apply respects_bind; [apply HP|intros _].
  apply respects_bind; [apply respects_discard_tokens|intros _].
  intros p. apply Rn_refl.
Qed.

(** Every rule respects what reading a token, printing a line and the
    fatal-error routine respect; so does a whole parse. *)
Lemma respects_parse (fuel : nat) :
  respects Rn Rt (Parser.parse G Pr Ts fuel).
Proof. apply respects_subprogramBodies. Qed.

End Respects.

(** ** What a whole parse keeps, with the Scanner of the repository *)

Lemma advances_refl (p : Real.Parser) : Real.advances p p.
Proof.
  repeat split; exists []; [reflexivity | |]; now rewrite app_nil_r.
Qed.

Lemma advances_trans (p q r : Real.Parser) :
  Real.advances p q -> Real.advances q r -> Real.advances p r.
Proof.
  intros ((c1 & H1) & (m1 & H2) & (l1 & H3)) ((c2 & H4) & (m2 & H5) & (l2 & H6)).
  repeat split.
  - exists (c1 ++ c2)%list. now rewrite H1, H4, app_assoc.
  - exists (m1 ++ m2)%list. now rewrite H5, H2, app_assoc.
  - exists (l1 ++ l2)%list. now rewrite H6, H3, app_assoc.
Qed.

Lemma advance_advances :
  respects Real.advances Real.advances (Parser.advance Real.GetNextToken).
Proof.
  intros p. unfold Parser.advance.
  destruct (Real.GetNextToken (Parser.chario p)) as [t w|e w|w] eqn:Hg.
  - apply GetNextToken_spec in Hg.
    destruct Hg as (He & pre & w' & Hs & _).
    repeat split; cbn [Parser.chario Parser.stdout].
    + exists (pre ++ list_ascii_of_string w')%list. now rewrite <- app_assoc.
    + exists []. now rewrite app_nil_r.
    + exists []. now rewrite app_nil_r.
  - apply GetNextToken_raise_spec in Hg.
    destruct Hg as (_ & pre & ch & Hs & _ & He).
    repeat split; cbn [Parser.chario Parser.stdout].
    + exists (pre ++ [ch])%list. now rewrite <- app_assoc.
    + eexists. exact He.
    + exists []. now rewrite app_nil_r.
  - pose proof (GetNextToken_no_timeout reservedWords (Parser.chario p)) as H.
    unfold Real.GetNextToken in Hg. rewrite Hg in H. discriminate H.
Qed.

Lemma print_advances (line : string) :
  respects Real.advances Real.advances (Parser.print (W:=Chario) line).
Proof.
  intros p. repeat split; cbn [Parser.chario Parser.stdout].
  - now exists [].
  - exists []. now rewrite app_nil_r.
  - now exists [line].
Qed.

Lemma PrintErrorMessage_advances (msg : string) :
  respects Real.advances Real.advances
    (Parser.PrintErrorMessage PrintErrorMessage msg).
Proof.
  intros p. repeat split; cbn [Parser.chario Parser.stdout].
  - now exists [].
  - now exists [msg].
  - exists []. now rewrite app_nil_r.
Qed.

Lemma fatalError_advances (fuel : nat) (msg : string) :
  respects Real.advances Real.advances
    (Parser.fatalError Real.GetNextToken PrintErrorMessage Token_str fuel msg).
Proof.
  exact (respects_fatalError_steps Chario Real.GetNextToken PrintErrorMessage
           Token_str Real.advances Real.advances
           advances_refl advances_trans advances_trans advances_refl
           advance_advances print_advances PrintErrorMessage_advances
           fuel msg).
Qed.

(** X15.  Through a whole parse, however it ends, the cursor only moves
    forward and nothing written is taken back: the input left is a
    suffix of the input the parse started with, the diagnostics in the
    sink and the lines printed start with those that were there. *)
Theorem parse_only_moves_forward (fuel : nat) (p : Real.Parser) :
  let q := final (Parser.parse Real.GetNextToken PrintErrorMessage Token_str
                    fuel p) in
  (exists consumed,
      source (Parser.chario p) = (consumed ++ source (Parser.chario q))%list)
  /\ (exists more,
        errors (Parser.chario q) = (errors (Parser.chario p) ++ more)%list)
  /\ (exists lines, Parser.stdout q = (Parser.stdout p ++ lines)%list).
Proof.
  pose proof (respects_parse Chario Real.GetNextToken PrintErrorMessage
                Token_str Real.advances Real.advances
                advances_refl advances_trans advances_trans advances_refl
                advance_advances print_advances fatalError_advances fuel p) as H.
  cbv zeta.
  destruct (Parser.parse _ _ _ fuel p); exact H.
Qed.

Lemma lexical_diagnostic (ch : ascii) :
  Real.is_lexical ("Unexpected symbol '" ++ String ch "" ++ "'") = true.
Proof. reflexivity. Qed.

Lemma lexical_last_refl (p : Real.Parser) : Real.reports_lexical_last p p.
Proof. exists []. split; [now rewrite app_nil_r | now left]. Qed.

Lemma ends_lexical_app (m1 m2 : list string) :
  Real.ends_lexical m1 -> Real.ends_lexical m2 ->
  Real.ends_lexical (m1 ++ m2)%list.
Proof.
  intros H1 [->|(init & l & -> & Hl)].
  - now rewrite app_nil_r.
  - right. exists (m1 ++ init)%list, l. now rewrite app_assoc.
Qed.

Lemma lexical_last_trans (p q r : Real.Parser) :
  Real.reports_lexical_last p q -> Real.reports_lexical_last q r ->
  Real.reports_lexical_last p r.
Proof.
  intros (m1 & H1 & E1) (m2 & H2 & E2). exists (m1 ++ m2)%list. split.
  - now rewrite H2, H1, app_assoc.
  - now apply ends_lexical_app.
Qed.

Lemma advance_lexical_last :
  respects Real.reports_lexical_last (fun _ _ => True)
    (Parser.advance Real.GetNextToken).
Proof.
  intros p. unfold Parser.advance.
  destruct (Real.GetNextToken (Parser.chario p)) as [t w|e w|w] eqn:Hg;
    [| |exact I].
  - apply GetNextToken_spec in Hg. destruct Hg as (He & _).
    exists []. cbn [Parser.chario]. split; [now rewrite app_nil_r | now left].
  - apply GetNextToken_raise_spec in Hg.
    destruct Hg as (_ & pre & ch & _ & _ & He).
    eexists. cbn [Parser.chario]. split; [exact He|].
    right. exists [], ("Unexpected symbol '" ++ String ch "" ++ "'").
    split; [reflexivity | apply lexical_diagnostic].
Qed.

Lemma print_lexical_last (line : string) :
  respects Real.reports_lexical_last (fun _ _ => True)
    (Parser.print (W:=Chario) line).
Proof. intros p. apply (lexical_last_refl p). Qed.

Lemma fatalError_lexical_last (fuel : nat) (msg : string) :
  respects Real.reports_lexical_last (fun _ _ => True)
    (Parser.fatalError Real.GetNextToken PrintErrorMessage Token_str fuel msg).
Proof.
  intros p. pose proof (real_fatalError_outcome fuel msg p) as H.
  destruct (Parser.fatalError _ _ _ fuel msg p) as [a q|e q|q];
    [contradiction | | exact I].
  destruct H as (_ & _ & ch & He).
  eexists. split; [exact He|].
  right. exists [msg], ("Unexpected symbol '" ++ String ch "" ++ "'").
  split; [reflexivity | apply lexical_diagnostic].
Qed.

Lemma parse_lexical_last (fuel : nat) :
  respects Real.reports_lexical_last (fun _ _ => True)
    (Parser.parse Real.GetNextToken PrintErrorMessage Token_str fuel).
Proof.
  exact (respects_parse Chario Real.GetNextToken PrintErrorMessage Token_str
           Real.reports_lexical_last (fun _ _ => True)
           lexical_last_refl lexical_last_trans
           (fun _ _ _ _ _ => I) (fun _ => I)
           advance_lexical_last print_lexical_last fatalError_lexical_last
           fuel).
Qed.

(** X16.  With the Scanner of the repository, a session never completes
    on a syntax error: when [parse] returns, the sink is empty or its
    last diagnostic is one of the Scanner ("Unexpected symbol ...").
    Every syntax diagnostic is followed by a hang of the discard or by a
    lexical error that ends it, so a session that completes without any
    lexical diagnostic has reported nothing at all. *)
Theorem completed_session_ends_on_no_syntax_error
    (fuel : nat) (text : string) (p : Real.Parser) :
  Real.run fuel text = Parser.Completed p ->
  (errors (Parser.chario p) = []
   \/ exists init l,
        errors (Parser.chario p) = (init ++ [l])%list
        /\ String.prefix "Unexpected symbol '" l = true)
  /\ ((forall l, In l (errors (Parser.chario p)) ->
                 String.prefix "Unexpected symbol '" l = false) ->
      errors (Parser.chario p) = []).
Proof.
  unfold Real.run, Parser.run, Parser.init. intros H.
  destruct (Real.GetNextToken (chario_of text)) as [t w|e w|w] eqn:Hg;
    try discriminate H.
  apply GetNextToken_spec in Hg. destruct Hg as (He & _).
  pose proof (parse_lexical_last fuel (Parser.mkParser w t [])) as Hp.
  destruct (Parser.parse _ _ _ fuel _) as [a q|e q|q]; try discriminate H.
  injection H as <-.
  destruct Hp as (more & Hm & Hend). cbn [Parser.chario] in Hm.
  rewrite He in Hm. cbn [chario_of errors app] in Hm.
  assert (Hl : errors (Parser.chario q) = []
               \/ exists init l,
                    errors (Parser.chario q) = (init ++ [l])%list
                    /\ String.prefix "Unexpected symbol '" l = true).
  { rewrite Hm. exact Hend. }
  split; [exact Hl|].
  intros Hno. destruct Hl as [Hl|(init & l & Hl & Hpre)]; [exact Hl|].
  rewrite (Hno l) in Hpre; [discriminate Hpre|].
  rewrite Hl. apply in_or_app. right. now left.
Qed.

Lemma completed_session_ends_on_no_syntax_error_witness :
  errors (mkChario [] ["Unexpected symbol '@'"]) = []
  \/ exists init l,
       errors (mkChario [] ["Unexpected symbol '@'"]) = (init ++ [l])%list
       /\ String.prefix "Unexpected symbol '" l = true.
Proof.
  exact (proj1 (completed_session_ends_on_no_syntax_error 12
                  "procedure Foo is begin if x then null; end @ Foo;"
                  (Parser.mkParser (mkChario [] ["Unexpected symbol '@'"])
                     t_eof ["continue parsing next statement" ++ LF])
                  eq_refl)).
Defined.

(** ** Identifier lists *)

Lemma more_identifiers_loop : forall (xs : list string) (k fuel : nat)
    (t : Token) rest d o,
  (code t =? Tok.COMMA) = false ->
  length xs <= k ->
  while_ k (Parser.tok_is Tok.COMMA)
    (Replay.advance ;; Replay.accept fuel Tok.ID "identifier expected")
    (Replay.start (Replay.more_identifiers xs ++ t :: rest)%list d o)
  = Ret tt (Replay.at_ t rest d o).
Proof.
  induction xs as [|x xs IH]; intros k fuel t rest d o Ht Hk.
  - apply while_false. exact Ht.
  - destruct k as [|k]; [simpl in Hk; lia|].
    unfold Replay.more_identifiers. cbn [map Replay.operands app].
    fold (Replay.more_identifiers xs). rewrite start_cons.
    rewrite while_true by reflexivity.
    erewrite bind_ret_l.
    2:{ erewrite bind_ret_l by apply advance_start.
        rewrite start_cons. now apply accept_match_plain. }
    apply IH; [assumption | simpl in Hk; lia].
Qed.

(** X17.  [identifierList] takes a whole list: an identifier followed by
    any number of [(comma, identifier)] pairs is consumed to its end
    without a diagnostic, and the lookahead is left on the first token
    that is not a comma. *)
Theorem identifierList_takes_the_whole_list
    (fuel : nat) (a : string) (xs : list string) (t : Token)
    (rest : list Token) (d o : list string) :
  (code t =? ",") = false ->
  length xs <= fuel ->
  Replay.identifierList fuel
    (Replay.at_ (t_id a) (Replay.more_identifiers xs ++ t :: rest)%list d o)
  = Ret tt (Replay.at_ t rest d o).
Proof.
  intros Ht Hf. unfold Replay.identifierList, Parser.identifierList.
  erewrite bind_ret_l by now apply accept_match_plain.
  now apply more_identifiers_loop.
Qed.

Lemma identifierList_takes_the_whole_list_witness :
  Replay.identifierList 2
    (Replay.at_ (t_id "a")
       [t_sym ","; t_id "b"; t_sym ","; t_id "c"; t_sym ":"; t_id "T"] [] [])
  = Ret tt (Replay.at_ (t_sym ":") [t_id "T"] [] []).
Proof.
  exact (identifierList_takes_the_whole_list 2 "a" ["b"; "c"] (t_sym ":")
           [t_id "T"] [] [] eq_refl (le_n 2)).
Defined.
